(** * The stage chain of [models/pattern/chain.go]

  A [Chain] holds two parallel slices of closures, [stages] and [nexts],
  and a pointer to a [sync.Mutex].  [Add] appends a wrapper closure for a
  stage function and patches the previous continuation slot; [Process]
  calls the first wrapper; [Clear] replaces both slices by empty ones.

  The embedding is defunctionalised: the only closures the chain code ever
  creates are the [stageFn] wrappers of [Add], so a value of type
  [ChainStageNextFunction] is either [nil] or such a wrapper, given by the
  variables it captures ([fn] and [nextIdxStageFn]; the captured [ch] is
  the one chain of the state).  A stage function is given by what its body
  does that the chain can tell: effects on caller-owned state, tests,
  calls of the [next] it was handed, keeping that [next] and calling a
  function value that was kept, panics and recoveries, and calls back into
  the chain. *)

From Stdlib Require Import List Arith ZArith Lia.
From stdpp Require Import base tactics option list strings.
Import ListNotations.

Section ChainModel.

(** [Plan] stands for the values of Go type [*Plan] (references; the
    struct is declared elsewhere in the package and never inspected
    here), [E] for the non-nil values of the interface type [error],
    and [World] for everything stage functions can read or write:
    the memory behind plan pointers, captured counters, and so on. *)
Context {Plan E World : Type}.

(** Go's [error]: [None] is [nil]. *)
Definition error : Type := option E.

(** ** Stage functions *)

(** The body of a [ChainStageFunction], called as [fn(plan, err, next)].
    A continuation is an ordinary function value: a body can call the
    [next] it received, store it in a variable [kept] of type
    [[]ChainStageNextFunction] that outlives the call, and call what any
    stage function has stored there.  Scope: a body reaches the chain
    through its methods only (the fields [stages], [nexts] and [mu] are not
    exported) and starts no goroutine; the function value passed to [Add]
    is not nil. *)
Inductive Body : Type :=
| Return                                           (* the function returns *)
| Effect (f : World -> World) (k : Body)           (* a side effect *)
| Observe (k : World -> Body)                      (* branch on caller state *)
| NextIsNil (k : bool -> Body)                     (* branch on next == nil *)
| CallNext (plan : Plan) (err : error) (k : Body)  (* next(plan, err) *)
| CallAdd (fn : Plan -> error -> Body) (k : Body)  (* ch.Add(fn) *)
| CallProcess (plan : Plan) (k : Body)             (* ch.Process(plan) *)
| CallClear (k : Body)                             (* ch.Clear() *)
| KeepNext (k : Body)                      (* kept = append(kept, next) *)
| CallKept (i : nat) (plan : Plan) (err : error) (k : Body)
                                           (* kept[i](plan, err) *)
| Panic                                    (* panic(v) *)
| Protect (b : Body) (k : Body)
                   (* func() { defer func() { recover() }(); b }(); k *)
| Loop.                                    (* for {} *)

(** [type ChainStageFunction
          func(plan *Plan, err error, next ChainStageNextFunction)] *)
Definition ChainStageFunction : Type := Plan -> error -> Body.

(** [type ChainStageNextFunction func(plan *Plan, err error)]:
    nil, or the closure [stageFn] built at lines 41-43 of [Add]. *)
Inductive ChainStageNextFunction : Type :=
| nil_func
| stageFn (fn : ChainStageFunction) (nextIdxStageFn : nat).

(** [type ChainStages []ChainStageNextFunction] *)
Local Abbreviation ChainStages := (list ChainStageNextFunction).

(** ** The chain *)

(** The state of a [sync.Mutex]. *)
Inductive Mutex : Type := Unlocked | Locked.

(** [type Chain struct { stages, nexts ChainStages; mu *sync.Mutex }].
    [mu] is a pointer: [None] is the nil pointer, [Some m] points to a
    mutex in state [m].  No code of the file assigns [mu]. *)
Record Chain : Type := mkChain {
  stages : ChainStages;
  nexts : ChainStages;
  mu : option Mutex
}.

(** [func CreateChain() *Chain]: both slices are made empty; the
    composite literal does not mention [mu], which is therefore the zero
    value of [*sync.Mutex], nil. *)
Definition CreateChain : Chain :=
  {| stages := []; nexts := []; mu := None |}.

(** ** Program state *)

(** One entry of the invocation log: wrapper number [inv_idx] called its
    stage function [inv_fn] with [inv_plan] and [inv_err]. *)
Record Invocation : Type := Invoked {
  inv_idx : nat;
  inv_fn : ChainStageFunction;
  inv_plan : Plan;
  inv_err : error
}.

(** One entry of the second log: the stage function that wrapper number
    [stage] runs has called a function value, the [next] it was handed
    ([ByNext]) or one that had been kept ([ByKept]). *)
Inductive Handoff : Type :=
| ByNext (stage : nat)
| ByKept (stage : nat).

(** The chain [ch] points to, the caller's state, the continuations that
    stage functions have kept, and the two logs (ghost state: [calls] is
    written at line 42, [handoffs] where a stage function calls a function
    value; both are read by nothing). *)
Record State : Type := mkState {
  chain : Chain;
  world : World;
  kept : list ChainStageNextFunction;
  calls : list Invocation;
  handoffs : list Handoff
}.

Definition set_chain (ch : Chain) (s : State) : State :=
  {| chain := ch; world := world s; kept := kept s; calls := calls s;
     handoffs := handoffs s |}.

Definition set_mu (m : Mutex) (s : State) : State :=
  set_chain {| stages := stages (chain s); nexts := nexts (chain s);
               mu := Some m |} s.

Definition set_world (f : World -> World) (s : State) : State :=
  {| chain := chain s; world := f (world s); kept := kept s;
     calls := calls s; handoffs := handoffs s |}.

Definition record (c : Invocation) (s : State) : State :=
  {| chain := chain s; world := world s; kept := kept s;
     calls := calls s ++ [c]; handoffs := handoffs s |}.

(** [kept = append(kept, f)] *)
Definition keep (f : ChainStageNextFunction) (s : State) : State :=
  {| chain := chain s; world := world s; kept := kept s ++ [f];
     calls := calls s; handoffs := handoffs s |}.

Definition hand_on (h : Handoff) (s : State) : State :=
  {| chain := chain s; world := world s; kept := kept s;
     calls := calls s; handoffs := handoffs s ++ [h] |}.

(** Run-time faults. *)
Inductive Fault : Type :=
| NilMutex           (* method call through a nil *sync.Mutex *)
| NilFuncCall        (* call of a nil function value *)
| IndexOutOfRange    (* slice index out of range *)
| UnlockOfUnlocked   (* sync: unlock of unlocked mutex *)
| StagePanic.        (* panic(v) in a stage function *)

(** How a call ends.  [Blocked]: the goroutine waits for a mutex that
    is held, and nothing in a sequential run releases it.  [Diverged]: a
    stage function loops for ever.  [OutOfFuel] belongs to the interpreter,
    not to Go. *)
Inductive Outcome : Type :=
| Returned (s : State)
| Panicked (f : Fault) (s : State)
| Blocked (s : State)
| Diverged (s : State)
| OutOfFuel (s : State).

Definition final_state (o : Outcome) : State :=
  match o with
  | Returned s | Panicked _ s | Blocked s | Diverged s | OutOfFuel s => s
  end.

(** Sequencing: the rest runs only after a normal return. *)
Definition and_then (o : Outcome) (k : State -> Outcome) : Outcome :=
  match o with
  | Returned s => k s
  | other => other
  end.

(** [defer d()]: [d] runs when the function returns, also while a panic
    unwinds; a goroutine that is blocked or loops unwinds nothing. *)
Definition deferred (d : State -> Outcome) (o : Outcome) : Outcome :=
  match o with
  | Returned s => d s
  | Panicked f s =>
      match d s with
      | Returned s' => Panicked f s'
      | other => other
      end
  | other => other
  end.

(** [ch.mu.Lock()] *)
Definition Lock (s : State) : Outcome :=
  match mu (chain s) with
  | None => Panicked NilMutex s
  | Some Locked => Blocked s
  | Some Unlocked => Returned (set_mu Locked s)
  end.

(** [ch.mu.Unlock()] *)
Definition Unlock (s : State) : Outcome :=
  match mu (chain s) with
  | None => Panicked NilMutex s
  | Some Unlocked => Panicked UnlockOfUnlocked s
  | Some Locked => Returned (set_mu Unlocked s)
  end.

(** ** The three methods *)

(** [func (ch *Chain) Add(fn ChainStageFunction) *Chain].  The index
    written at line 48 is in range ([nextIdxStageFn - 1 < len(ch.nexts)]),
    so the list update never meets its out-of-range case. *)
Definition Add (fn : ChainStageFunction) (s : State) : Outcome :=
  and_then (Lock s) (fun s1 =>
  deferred Unlock
    (let ch := chain s1 in
     let nexts1 := nexts ch ++ [nil_func] in
     let nextIdxStageFn := length nexts1 - 1 in
     let stageFn' := stageFn fn nextIdxStageFn in
     let nexts2 :=
       if 0 <? nextIdxStageFn
       then <[nextIdxStageFn - 1 := stageFn']> nexts1
       else nexts1 in
     Returned (set_chain {| stages := stages ch ++ [stageFn'];
                            nexts := nexts2;
                            mu := mu ch |} s1))).

(** [func (ch *Chain) Clear() *Chain]: no lock is taken. *)
Definition Clear (s : State) : Outcome :=
  Returned (set_chain {| stages := []; nexts := [];
                         mu := mu (chain s) |} s).

(** [func (ch *Chain) Process(plan *Plan) *Chain], over the function
    [callf] that calls a [ChainStageNextFunction] value. *)
Definition Process_with
    (callf : ChainStageNextFunction -> Plan -> error -> State -> Outcome)
    (plan : Plan) (s : State) : Outcome :=
  and_then (Lock s) (fun s1 =>
  deferred Unlock
    (if 0 <? length (stages (chain s1))
     then match stages (chain s1) !! 0 with
          | Some stage0 => callf stage0 plan None s1
          | None => Panicked IndexOutOfRange s1
          end
     else Returned s1)).

(** The body of a stage function, run by wrapper number [self] with
    [next] bound.  A recovered panic ends the function literal it was
    raised in, and the code after that literal goes on. *)
Fixpoint run_body
    (callf : ChainStageNextFunction -> Plan -> error -> State -> Outcome)
    (self : nat) (next : ChainStageNextFunction) (b : Body) (s : State)
    : Outcome :=
  match b with
  | Return => Returned s
  | Effect f k => run_body callf self next k (set_world f s)
  | Observe k => run_body callf self next (k (world s)) s
  | NextIsNil k =>
      run_body callf self next
        (k match next with nil_func => true | stageFn _ _ => false end) s
  | CallNext plan err k =>
      and_then (callf next plan err (hand_on (ByNext self) s))
        (run_body callf self next k)
  | CallAdd fn k => and_then (Add fn s) (run_body callf self next k)
  | CallProcess plan k =>
      and_then (Process_with callf plan s) (run_body callf self next k)
  | CallClear k => and_then (Clear s) (run_body callf self next k)
  | KeepNext k => run_body callf self next k (keep next s)
  | CallKept i plan err k =>
      match kept s !! i with
      | None => Panicked IndexOutOfRange s
      | Some f =>
          and_then (callf f plan err (hand_on (ByKept self) s))
            (run_body callf self next k)
      end
  | Panic => Panicked StagePanic s
  | Protect b' k =>
      match run_body callf self next b' s with
      | Returned s' | Panicked _ s' => run_body callf self next k s'
      | Blocked s' => Blocked s'
      | Diverged s' => Diverged s'
      | OutOfFuel s' => OutOfFuel s'
      end
  | Loop => Diverged s
  end.

(** Calling a [ChainStageNextFunction] value [f(plan, err)].  For a
    wrapper this is line 42: [ch.nexts[nextIdxStageFn]] is read from the
    chain as it is now, then [fn] is called with it.  [fuel] bounds the
    depth of nested wrapper calls. *)
Fixpoint invoke (fuel : nat) (f : ChainStageNextFunction)
    (plan : Plan) (err : error) (s : State) : Outcome :=
  match f with
  | nil_func => Panicked NilFuncCall s
  | stageFn fn nextIdxStageFn =>
      match fuel with
      | 0 => OutOfFuel s
      | S fuel' =>
          match nexts (chain s) !! nextIdxStageFn with
          | None => Panicked IndexOutOfRange s
          | Some next =>
              run_body (invoke fuel') nextIdxStageFn next (fn plan err)
                (record (Invoked nextIdxStageFn fn plan err) s)
          end
      end
  end.

Definition Process (fuel : nat) (plan : Plan) (s : State) : Outcome :=
  Process_with (invoke fuel) plan s.

(** [ch.Add(S1). ... .Add(Sn)] *)
Fixpoint AddAll (fns : list ChainStageFunction) (s : State) : Outcome :=
  match fns with
  | [] => Returned s
  | fn :: rest => and_then (Add fn s) (AddAll rest)
  end.

(** ** What [Add] builds *)

(** The wrapper of the stage added at position [i] captures [i]. *)
Definition wrappers (fns : list ChainStageFunction) : ChainStages :=
  imap (fun i fn => stageFn fn i) fns.

(** Slot [i] holds the wrapper of stage [i + 1] once that stage exists,
    and nil before. *)
Definition slots (fns : list ChainStageFunction) : ChainStages :=
  imap (fun i _ => match fns !! S i with
                   | Some g => stageFn g (S i)
                   | None => nil_func
                   end) fns.

Definition wired (fns : list ChainStageFunction) (m : option Mutex) : Chain :=
  {| stages := wrappers fns; nexts := slots fns; mu := m |}.

(** The log entries of stages [fns], the first of which sits at position
    [base], each called with [plan] and [err]. *)
Definition invocations (base : nat) (fns : list ChainStageFunction)
    (plan : Plan) (err : error) : list Invocation :=
  imap (fun i fn => Invoked (base + i) fn plan err) fns.

(** ** Shapes of stage bodies *)

(** [calls_exactly l b]: on every path through [b], the calls of [next]
    are exactly those of [l], in that order, and [b] does nothing else
    but effects and tests. *)
Inductive calls_exactly : list (Plan * error) -> Body -> Prop :=
| ce_return : calls_exactly [] Return
| ce_effect l f k : calls_exactly l k -> calls_exactly l (Effect f k)
| ce_observe l k :
    (forall w, calls_exactly l (k w)) -> calls_exactly l (Observe k)
| ce_next_is_nil l k :
    (forall b, calls_exactly l (k b)) -> calls_exactly l (NextIsNil k)
| ce_call_next l plan err k :
    calls_exactly l k -> calls_exactly ((plan, err) :: l) (CallNext plan err k).

(** A stage that unconditionally hands on what it received, once. *)
Definition forwards (fn : ChainStageFunction) : Prop :=
  forall plan err, calls_exactly [(plan, err)] (fn plan err).

(** A stage that calls [next] twice: called with [plan] and [err], it
    first hands on [a1 plan err] and then [a2 plan err]. *)
Definition calls_twice (a1 a2 : Plan -> error -> Plan * error)
    (fn : ChainStageFunction) : Prop :=
  forall plan err, calls_exactly [a1 plan err; a2 plan err] (fn plan err).


(** The two slices have the same length. *)
Definition same_length (s : State) : Prop :=
  length (stages (chain s)) = length (nexts (chain s)).

Definition out_of_fuel (o : Outcome) : bool :=
  match o with OutOfFuel _ => true | _ => false end.


(** A run that, from any state whose chain is [ch], returns, leaves the
    chain as it was and adds [t] to the log. *)
Definition returns_with (ch : Chain) (t : list Invocation)
    (run : State -> Outcome) : Prop :=
  forall s, chain s = ch ->
    exists s', run s = Returned s' /\ chain s' = ch /\ calls s' = calls s ++ t.

(** The same for a run that panics with [f]. *)
Definition panics_with (ch : Chain) (f : Fault) (t : list Invocation)
    (run : State -> Outcome) : Prop :=
  forall s, chain s = ch ->
    exists s', run s = Panicked f s' /\ chain s' = ch /\ calls s' = calls s ++ t.

(** What holds of the chain while [Process] runs: the mutex is held, and
    the slices are [st] and [nx] or have been cleared. *)
Definition held_over (st nx : ChainStages) (s : State) : Prop :=
  mu (chain s) = Some Locked /\
  ((stages (chain s) = st /\ nexts (chain s) = nx) \/
   (stages (chain s) = [] /\ nexts (chain s) = [])).

(** The handoffs by which a run can get past the stage at position [k]:
    that stage calls its [next], or some stage calls a continuation that was
    kept. *)
Definition goes_past (k : nat) (h : Handoff) : bool :=
  match h with
  | ByNext i => i =? k
  | ByKept _ => true
  end.

(** The handoffs of a run that started in [s0] and has got to [s1]. *)
Definition handoffs_since (s0 s1 : State) : list Handoff :=
  drop (length (handoffs s0)) (handoffs s1).

(** What holds of the chain and the second log while [Process] runs: the
    mutex is held, the slices are [st] and [nx] or have been cleared, and
    the log of handoffs has grown from [h0]. *)
Definition grown_from (st nx : ChainStages) (h0 : list Handoff) (s : State)
    : Prop :=
  held_over st nx s /\ exists u, handoffs s = h0 ++ u.

(** What holds of the state while [Process] runs a chain wired from
    [fns]: the mutex is held, the slices are those of [fns] or have been
    cleared, the log of handoffs has grown from [h0], and unless it has
    grown by a handoff that goes past position [k], the log of calls has
    grown from [t0] by calls of stages at positions up to [k]. *)
Definition halts_at (fns : list ChainStageFunction) (k : nat)
    (t0 : list Invocation) (h0 : list Handoff) (s : State) : Prop :=
  held_over (wrappers fns) (slots fns) s /\
  exists u, handoffs s = h0 ++ u /\
    (Exists (fun h => goes_past k h = true) u \/
     exists t, calls s = t0 ++ t /\
       Forall (fun c => inv_idx c <= k /\ fns !! inv_idx c = Some (inv_fn c))
         t).

(** [calls_back_first b]: on every path, after effects and tests only,
    [b] calls [Add] or [Process] on its own chain. *)
Inductive calls_back_first : Body -> Prop :=
| cb_effect f k : calls_back_first k -> calls_back_first (Effect f k)
| cb_observe k :
    (forall w, calls_back_first (k w)) -> calls_back_first (Observe k)
| cb_next_is_nil k :
    (forall b, calls_back_first (k b)) -> calls_back_first (NextIsNil k)
| cb_call_add fn k : calls_back_first (CallAdd fn k)
| cb_call_process plan k : calls_back_first (CallProcess plan k).

(** [calls_next_first b]: on every path, after effects and tests only, [b]
    calls [next]. *)
Inductive calls_next_first : Body -> Prop :=
| cn_effect f k : calls_next_first k -> calls_next_first (Effect f k)
| cn_observe k :
    (forall w, calls_next_first (k w)) -> calls_next_first (Observe k)
| cn_next_is_nil k :
    (forall b, calls_next_first (k b)) -> calls_next_first (NextIsNil k)
| cn_call_next plan err k : calls_next_first (CallNext plan err k).

(** [clears_then_calls_next b]: on every path, after effects and tests
    only, [b] calls [Clear] on its own chain and then, after effects and
    tests only, [next]. *)
Inductive clears_then_calls_next : Body -> Prop :=
| cc_effect f k :
    clears_then_calls_next k -> clears_then_calls_next (Effect f k)
| cc_observe k :
    (forall w, clears_then_calls_next (k w)) ->
    clears_then_calls_next (Observe k)
| cc_next_is_nil k :
    (forall b, clears_then_calls_next (k b)) ->
    clears_then_calls_next (NextIsNil k)
| cc_call_clear k : calls_next_first k -> clears_then_calls_next (CallClear k).

(** [calls_when nil l b]: as [calls_exactly l b], but on the paths [b]
    takes when its test [next == nil] gives [nil]. *)
Inductive calls_when (nil : bool) : list (Plan * error) -> Body -> Prop :=
| cw_return : calls_when nil [] Return
| cw_effect l f k : calls_when nil l k -> calls_when nil l (Effect f k)
| cw_observe l k :
    (forall w, calls_when nil l (k w)) -> calls_when nil l (Observe k)
| cw_next_is_nil l k :
    calls_when nil l (k nil) -> calls_when nil l (NextIsNil k)
| cw_call_next l plan err k :
    calls_when nil l k ->
    calls_when nil ((plan, err) :: l) (CallNext plan err k).

(** A stage that hands on what it received, once, when its continuation
    is bound, and calls nothing when it is nil. *)
Definition forwards_if_bound (fn : ChainStageFunction) : Prop :=
  forall plan err,
    calls_when true [] (fn plan err) /\
    calls_when false [(plan, err)] (fn plan err).

End ChainModel.

(** ** Concrete stages

    Plans are addresses, errors are codes, and the caller's state is one
    counter. *)

(** An empty chain whose mutex exists and is free. *)
Definition empty_chain_state : @State nat nat nat :=
  {| chain := {| stages := []; nexts := []; mu := Some Unlocked |};
     world := 0; kept := []; calls := []; handoffs := [] |}.

(** [func(plan, err, next) { count++; next(plan, err) }] *)
Definition count_and_forward : @ChainStageFunction nat nat nat :=
  fun plan err => Effect S (CallNext plan err Return).

(** [func(plan, err, next) { count++ }] *)
Definition count_and_stop : @ChainStageFunction nat nat nat :=
  fun plan err => Effect S Return.

(** [func(plan, err, next) { next(plan, err); next(plan, err) }] *)
Definition forward_twice : @ChainStageFunction nat nat nat :=
  fun plan err => CallNext plan err (CallNext plan err Return).

(** [func(plan, err, next) { next(plan, e) }], with [e] an error value. *)
Definition fail_with (e : nat) : @ChainStageFunction nat nat nat :=
  fun plan err => CallNext plan (Some e) Return.

(** [func(plan, err, next) { count++; if next != nil { next(plan, err) } }] *)
Definition count_and_forward_if_bound : @ChainStageFunction nat nat nat :=
  fun plan err =>
    Effect S (NextIsNil (fun nil =>
      if nil then Return else CallNext plan err Return)).

(** [func(plan, err, next) { ch.Add(fn) }], with the chain in reach. *)
Definition add_from_inside : @ChainStageFunction nat nat nat :=
  fun plan err => CallAdd (fun _ _ => Return) Return.

(** [func(plan, err, next) { ch.Clear(); next(plan, err) }] *)
Definition clear_and_forward : @ChainStageFunction nat nat nat :=
  fun plan err => CallClear (CallNext plan err Return).

(** [func(plan, err, next) { if err != nil { return }; next(plan, err) }] *)
Definition stop_on_error : @ChainStageFunction nat nat nat :=
  fun plan err =>
    match err with
    | Some _ => Return
    | None => CallNext plan err Return
    end.

(** [func(plan, err, next) { if count < 2 { next(plan, err) } }] *)
Definition forward_below_two : @ChainStageFunction nat nat nat :=
  fun plan err =>
    Observe (fun count => if count <? 2 then CallNext plan err Return
                          else Return).

(** [func(plan, err, next) { kept = append(kept, next) }] *)
Definition keep_and_stop : @ChainStageFunction nat nat nat :=
  fun plan err => KeepNext Return.

(** [func(plan, err, next) { next(plan, err); kept[0](plan, err) }] *)
Definition forward_then_call_kept : @ChainStageFunction nat nat nat :=
  fun plan err => CallNext plan err (CallKept 0 plan err Return).


(** The state after [ch.Add(S1). ... .Add(Sn)] on the empty chain. *)
Definition chain_of (fns : list (@ChainStageFunction nat nat nat))
    : @State nat nat nat :=
  final_state (AddAll fns empty_chain_state).

(** * The relationship handlers ([package handlers], lines 78-264)

    The handlers sit between libraries: [net/http], [gorilla/mux],
    [encoding/json], [os], [path/filepath] and meshkit's registry.  What
    the libraries give is taken as a parameter; what the handlers compute
    from it is modelled from the source. *)

Module handlers.

Section Relationships.

(** [v1alpha1.RelationshipDefinition], [[]byte], the error values the
    libraries return, what [GetEntities] returns, the state behind a
    [meshmodel.RegistryManager], [meshmodel.Host] and a request body. *)
Context {RelationshipDefinition Bytes LibError Entity Registry Host
         RequestBody : Type}.

(** [os.ReadFile(path)] and [json.Unmarshal(byt, &rel)] on a zero [rel]. *)
Variable ReadFile : string -> Bytes + LibError.
Variable Unmarshal : Bytes -> RelationshipDefinition + LibError.

(** [rm.RegisterEntity(host, r)]: the registry after the call, and the
    error. *)
Variable RegisterEntity :
  Host -> RelationshipDefinition -> Registry -> Registry * option LibError.

(** [meshmodel.Host{Hostname: name}] and [path.Clean]. *)
Variable HostNamed : string -> Host.
Variable Clean : string -> string.

(** ** Static relationships *)

(** The errors [parseStaticRelationships] can return: the one it makes
    with [fmt.Errorf("invalid/nil fileinfo while walking %s", path)], or one
    a library returned. *)
Inductive StaticError : Type :=
| InvalidFileInfo (path : string)
| LibraryError (e : LibError).

(** One call [filepath.Walk] makes of its callback: [path], [info] (nil,
    or a [fs.FileInfo], of which the callback asks [IsDir()] only) and
    [err]. *)
Record Visit : Type := mkVisit {
  visit_path : string;
  visit_info : option bool;
  visit_err : option LibError
}.

(** The calls [filepath.Walk(root, fn)] makes, in order, for a callback
    that keeps returning nil. *)
Variable entries : string -> list Visit.

(** The callback of lines 230-247, a closure over the result [rs]. *)
Definition walkFn (v : Visit) (rs : list RelationshipDefinition)
    : list RelationshipDefinition * option StaticError :=
  match visit_info v with
  | None => (rs, Some (InvalidFileInfo (visit_path v)))
  | Some isDir =>
      if negb isDir then
        match ReadFile (visit_path v) with
        | inr err => (rs, Some (LibraryError err))
        | inl byt =>
            match Unmarshal byt with
            | inr err => (rs, Some (LibraryError err))
            | inl rel => (rs ++ [rel], None)
            end
        end
      else (rs, None)
  end.

(** [filepath.Walk], for a callback that returns nil or an error other
    than [SkipDir] and [SkipAll] (the callback above returns neither): it
    calls the callback entry by entry and returns the first error. *)
Fixpoint Walk
    (fn : Visit -> list RelationshipDefinition ->
          list RelationshipDefinition * option StaticError)
    (visits : list Visit) (rs : list RelationshipDefinition)
    : list RelationshipDefinition * option StaticError :=
  match visits with
  | [] => (rs, None)
  | v :: rest =>
      match fn v rs with
      | (rs', None) => Walk fn rest rs'
      | (rs', Some err) => (rs', Some err)
      end
  end.

(** [func parseStaticRelationships(sourceDirPath string)
          (rs []v1alpha1.RelationshipDefinition, err error)] *)
Definition parseStaticRelationships (sourceDirPath : string)
    : list RelationshipDefinition * option StaticError :=
  Walk walkFn (entries sourceDirPath) [].

(** The loop of lines 257-262, with the variable [err] it assigns. *)
Fixpoint register_each (host : Host) (rs : list RelationshipDefinition)
    (rm : Registry) (err : option StaticError)
    : Registry * option StaticError :=
  match rs with
  | [] => (rm, err)
  | r :: rest =>
      match RegisterEntity host r rm with
      | (rm', Some e) => (rm', Some (LibraryError e))
      | (rm', None) => register_each host rest rm' None
      end
  end.

(** Whether the loop of lines 257-262 finds every [rm.RegisterEntity(host,
    r)] return nil: the call for a relationship is made on the registry as
    the calls for those before it have left it. *)
Fixpoint accepts_each (host : Host) (rs : list RelationshipDefinition)
    (rm : Registry) : bool :=
  match rs with
  | [] => true
  | r :: rest =>
      match RegisterEntity host r rm with
      | (_, Some _) => false
      | (rm', None) => accepts_each host rest rm'
      end
  end.

(** [func RegisterStaticMeshmodelRelationships(rm meshmodel.RegistryManager,
          sourceDirPath string) (err error)] *)
Definition RegisterStaticMeshmodelRelationships (rm : Registry)
    (sourceDirPath : string) : Registry * option StaticError :=
  let host := HostNamed "meshery" in
  let '(rs, err) := parseStaticRelationships (Clean sourceDirPath) in
  if (match err with Some _ => true | None => false end)
     && (length rs =? 0)
  then (rm, err)
  else register_each host rs rm err.

(** What one entry adds to the result, and the error it ends the walk
    with: the two readings of an entry the properties are stated with. *)
Definition decoded (v : Visit) : option RelationshipDefinition :=
  match visit_info v with
  | Some false =>
      match ReadFile (visit_path v) with
      | inl byt =>
          match Unmarshal byt with
          | inl rel => Some rel
          | inr _ => None
          end
      | inr _ => None
      end
  | _ => None
  end.

Definition failure (v : Visit) : option StaticError :=
  match visit_info v with
  | None => Some (InvalidFileInfo (visit_path v))
  | Some true => None
  | Some false =>
      match ReadFile (visit_path v) with
      | inr err => Some (LibraryError err)
      | inl byt =>
          match Unmarshal byt with
          | inr err => Some (LibraryError err)
          | inl _ => None
          end
      end
  end.

(** ** Registration over HTTP *)

(** [meshmodel.MeshModelRegistrantData], the fields the handler reads. *)
Record MeshModelRegistrantData : Type := mkRegistrantData {
  cc_Host : Host;
  cc_EntityType : string;
  cc_Entity : Bytes
}.

(** [json.NewDecoder(r.Body).Decode(&cc)] and the constant
    [types.RelationshipDefinition]. *)
Variable Decode : RequestBody -> MeshModelRegistrantData + LibError.
Variable RelationshipDefinitionType : string.

(** What the handler does that its caller can tell: the [http.Error] it
    wrote, if any ([None]: it wrote nothing, and [net/http] answers 200),
    the registry, and whether it started
    [h.config.MeshModelSummaryChannel.Publish()]. *)
Record Registration : Type := mkRegistration {
  reg_error : option (Z * LibError);
  reg_registry : Registry;
  reg_published : bool
}.

(** [http.StatusBadRequest] *)
Definition StatusBadRequest : Z := 400.

(** [func (h *Handler) RegisterMeshmodelRelationships(rw, r)] *)
Definition RegisterMeshmodelRelationships (body : RequestBody)
    (rm : Registry) : Registration :=
  match Decode body with
  | inr err => mkRegistration (Some (StatusBadRequest, err)) rm false
  | inl cc =>
      if String.eqb (cc_EntityType cc) RelationshipDefinitionType then
        match Unmarshal (cc_Entity cc) with
        | inr err => mkRegistration (Some (StatusBadRequest, err)) rm false
        | inl r =>
            match RegisterEntity (cc_Host cc) r rm with
            | (rm', Some err) =>
                mkRegistration (Some (StatusBadRequest, err)) rm' false
            | (rm', None) => mkRegistration None rm' true
            end
        end
      else mkRegistration None rm true
  end.

(** ** Queries *)

(** [strconv.Atoi], of which the handlers keep the number and drop the
    error, and the constant [DefaultPageSizeForMeshModelComponents]. *)
Variable Atoi : string -> Z.
Variable DefaultPageSizeForMeshModelComponents : Z.

(** Go's [int], taken to be 64 bits wide: the value an arithmetic result
    [z] wraps around to. *)
Definition int_wrap (z : Z) : Z := ((z + 2 ^ 63) mod 2 ^ 64 - 2 ^ 63)%Z.

(** [v1alpha1.RelationshipFilter], the fields the handlers set; a field a
    handler leaves out has its zero value. *)
Record RelationshipFilter : Type := mkFilter {
  Kind : string;
  Greedy : bool;
  ModelName : string;
  Version : string;
  Limit : Z;
  Offset : Z;
  OrderOn : string;
  Sort : string
}.

(** [h.registryManager.GetEntities(filter)] and the type assertion
    [r.(v1alpha1.RelationshipDefinition)]. *)
Variable GetEntities : RelationshipFilter -> list Entity.
Variable asRelationshipDefinition : Entity -> option RelationshipDefinition.

(** The filter [GetMeshmodelRelationshipByName] builds (lines 111-139)
    from the route variables ([mux.Vars(r)[key]]) and the query
    ([r.URL.Query().Get(key)]); both give the empty string for a key that
    is not there. *)
Definition filterByName (vars query : string -> string)
    : RelationshipFilter :=
  let typ := vars "model" in
  let name := vars "name" in
  let greedy := if String.eqb (query "search") "true" then true else false in
  let limitstr := query "pagesize" in
  let limit :=
    if negb (String.eqb limitstr "all") then
      let limit := Atoi limitstr in
      if (limit =? 0)%Z then DefaultPageSizeForMeshModelComponents else limit
    else 0%Z in
  let pagestr := query "page" in
  let page := Atoi pagestr in
  let page := if (page =? 0)%Z then 1%Z else page in
  let offset := int_wrap (int_wrap (page - 1) * limit) in
  {| Kind := name; ModelName := typ; Greedy := greedy;
     Limit := limit; Offset := offset;
     OrderOn := query "order"; Sort := query "sort";
     Version := "" |}.

(** The filter [GetAllMeshmodelRelationships] builds (lines 167-189). *)
Definition filterAll (vars query : string -> string) : RelationshipFilter :=
  let typ := vars "model" in
  let limitstr := query "pagesize" in
  let limit :=
    if negb (String.eqb limitstr "all") then
      let limit := Atoi limitstr in
      if (limit =? 0)%Z then DefaultPageSizeForMeshModelComponents else limit
    else 0%Z in
  let pagestr := query "page" in
  let page := Atoi pagestr in
  let page := if (page =? 0)%Z then 1%Z else page in
  let offset := int_wrap (int_wrap (page - 1) * limit) in
  {| Version := query "version"; ModelName := typ;
     Limit := limit; Offset := offset;
     OrderOn := query "order"; Sort := query "sort";
     Kind := ""; Greedy := false |}.

(** The loop of lines 140-146 and 190-196: the entities that are
    relationship definitions, in the order they came. *)
Fixpoint relationshipsOf (res : list Entity) (rels : list RelationshipDefinition)
    : list RelationshipDefinition :=
  match res with
  | [] => rels
  | r :: rest =>
      match asRelationshipDefinition r with
      | Some rel => relationshipsOf rest (rels ++ [rel])
      | None => relationshipsOf rest rels
      end
  end.

(** [func (h *Handler) GetMeshmodelRelationshipByName(rw, r)]: the value
    it hands to [enc.Encode]. *)
Definition GetMeshmodelRelationshipByName (vars query : string -> string)
    : list RelationshipDefinition :=
  relationshipsOf (GetEntities (filterByName vars query)) [].

(** [func (h *Handler) GetAllMeshmodelRelationships(rw, r)]: the value it
    hands to [enc.Encode]. *)
Definition GetAllMeshmodelRelationships (vars query : string -> string)
    : list RelationshipDefinition :=
  relationshipsOf (GetEntities (filterAll vars query)) [].

End Relationships.

End handlers.

Import handlers.

(** ** A file tree, a registry and requests for the examples

    Relationship definitions, file contents, errors and hosts are strings;
    the registry is the list of what it holds; an entity is a relationship
    definition or something else (a number). *)

(** The files there are, with their contents. *)
Definition demo_files : list (string * string) :=
  [("rels/a.json", "edge"); ("rels/nested/b.json", "mount");
   ("broken/a.json", "edge"); ("broken/bad.json", "");
   ("broken/c.json", "bind");
   ("twice/a.json", "edge"); ("twice/b.json", "edge");
   ("twice/c.json", "bind")].

Fixpoint demo_lookup (values : list (string * string)) (key : string)
    : option string :=
  match values with
  | [] => None
  | (k, v) :: rest => if String.eqb k key then Some v else demo_lookup rest key
  end.

Definition demo_ReadFile (path : string) : string + string :=
  match demo_lookup demo_files path with
  | Some content => inl content
  | None => inr "no such file or directory"
  end.

(** Decoding fails on the empty input only. *)
Definition demo_Unmarshal (byt : string) : string + string :=
  if String.eqb byt "" then inr "unexpected end of JSON input" else inl byt.

(** The registry refuses the relationship ["forbidden"] and any
    relationship it holds already, and appends every other one. *)
Definition demo_RegisterEntity (host r : string) (rm : list string)
    : list string * option string :=
  if String.eqb r "forbidden" || existsb (String.eqb r) rm
  then (rm, Some "refused")
  else (rm ++ [r], None).

(** What a walk presents: of ["rels"] a directory with a file and a
    directory with a file, of ["broken"] and of ["twice"] a directory
    with three files, of ["empty"] a directory, of any other path one
    entry without file information. *)
Definition demo_entries (root : string) : list (@Visit string) :=
  if String.eqb root "rels" then
    [mkVisit "rels" (Some true) None;
     mkVisit "rels/a.json" (Some false) None;
     mkVisit "rels/nested" (Some true) None;
     mkVisit "rels/nested/b.json" (Some false) None]
  else if String.eqb root "broken" then
    [mkVisit "broken" (Some true) None;
     mkVisit "broken/a.json" (Some false) None;
     mkVisit "broken/bad.json" (Some false) None;
     mkVisit "broken/c.json" (Some false) None]
  else if String.eqb root "twice" then
    [mkVisit "twice" (Some true) None;
     mkVisit "twice/a.json" (Some false) None;
     mkVisit "twice/b.json" (Some false) None;
     mkVisit "twice/c.json" (Some false) None]
  else if String.eqb root "empty" then
    [mkVisit "empty" (Some true) None]
  else
    [mkVisit root None (Some "no such file or directory")].

(** A request body is the registrant data it decodes to, or nothing that
    decodes. *)
Definition demo_Decode (body : option (@MeshModelRegistrantData string string))
    : @MeshModelRegistrantData string string + string :=
  match body with
  | Some cc => inl cc
  | None => inr "EOF"
  end.

(** [mux.Vars(r)[key]] and [r.URL.Query().Get(key)] on the pairs of a
    request: the first value of the key, or the empty string. *)
Definition Get (values : list (string * string)) (key : string) : string :=
  match demo_lookup values key with
  | Some v => v
  | None => ""
  end.

(** What [strconv.Atoi] gives on the numbers of the examples; 0 on the
    other strings, which are not numbers. *)
Definition demo_Atoi (s : string) : Z :=
  if String.eqb s "1" then 1%Z
  else if String.eqb s "2" then 2%Z
  else if String.eqb s "3" then 3%Z
  else if String.eqb s "10" then 10%Z
  else if String.eqb s "25" then 25%Z
  else if String.eqb s "-1" then (-1)%Z
  else 0%Z.

(** A registry of four entities, one of them no relationship definition,
    that pages through them as the filter says (limit 0: no limit). *)
Definition demo_GetEntities (f : RelationshipFilter) : list (string + nat) :=
  let all := [inl "edge"; inr 7; inl "mount"; inl "bind"] in
  let rest := drop (Z.to_nat (Offset f)) all in
  if (Limit f =? 0)%Z then rest else take (Z.to_nat (Limit f)) rest.

Definition demo_asRelationshipDefinition (e : string + nat) : option string :=
  match e with
  | inl rel => Some rel
  | inr _ => None
  end.

Section ChainProofs.

Context {Plan E World : Type}.

Local Abbreviation ChainStageFunction := (@ChainStageFunction Plan E World).
Local Abbreviation ChainStageNextFunction :=
  (@ChainStageNextFunction Plan E World).
Local Abbreviation ChainStages := (list ChainStageNextFunction).
Local Abbreviation Chain := (@Chain Plan E World).
Local Abbreviation Invocation := (@Invocation Plan E World).
Local Abbreviation State := (@State Plan E World).
Local Abbreviation Outcome := (@Outcome Plan E World).
Local Abbreviation Body := (@Body Plan E World).
Local Abbreviation error := (@error E).

Implicit Types (fn g : ChainStageFunction) (fns : list ChainStageFunction).
Implicit Types (s : State) (o : Outcome) (b : Body) (ch : Chain).
Implicit Types (plan : Plan) (err : error) (next : ChainStageNextFunction).

(** ** [Add] *)

Lemma set_chain_id (s : State) : set_chain (chain s) s = s.
Proof. by destruct s. Qed.

Lemma Add_unlocked (fn : ChainStageFunction) (s : State) :
  mu (chain s) = Some Unlocked ->
  Add fn s =
  Returned (set_chain
    {| stages := stages (chain s) ++ [stageFn fn (length (nexts (chain s)))];
       nexts := (if 0 <? length (nexts (chain s))
                 then <[length (nexts (chain s)) - 1 :=
                          stageFn fn (length (nexts (chain s)))]>
                        (nexts (chain s) ++ [nil_func])
                 else nexts (chain s) ++ [nil_func]);
       mu := Some Unlocked |} s).
Proof.
  intros Hmu. unfold Add, Lock. rewrite Hmu. cbn.
  rewrite length_app. cbn.
  replace (length (nexts (chain s)) + 1 - 1) with (length (nexts (chain s)))
    by lia.
  reflexivity.
Qed.

Lemma Add_returned_inv (fn : ChainStageFunction) (s s' : State) :
  Add fn s = Returned s' -> mu (chain s) = Some Unlocked.
Proof.
  unfold Add, Lock. destruct (mu (chain s)) as [[]|]; cbn; congruence.
Qed.

(** What an [Add] that returned has done. *)
Lemma Add_returned_spec fn s s1 :
  Add fn s = Returned s1 ->
  mu (chain s1) = Some Unlocked /\
  stages (chain s1) =
    stages (chain s) ++ [stageFn fn (length (nexts (chain s)))] /\
  length (nexts (chain s1)) = S (length (nexts (chain s))) /\
  nexts (chain s1) !! length (nexts (chain s)) = Some nil_func /\
  (0 < length (nexts (chain s)) ->
   nexts (chain s1) !! (length (nexts (chain s)) - 1) =
   Some (stageFn fn (length (nexts (chain s))))).
Proof.
  intros HA. pose proof (Add_returned_inv _ _ _ HA) as Hmu.
  rewrite (Add_unlocked fn s Hmu) in HA. injection HA as <-.
  cbn [chain set_chain stages nexts mu]. split_and!; [done|done|..].
  - case_match; rewrite ?length_insert, length_app; cbn; lia.
  - case_match eqn:Hpos.
    + apply Nat.ltb_lt in Hpos. rewrite list_lookup_insert_ne by lia.
      by apply list_lookup_middle.
    + by apply list_lookup_middle.
  - intros Hpos. apply Nat.ltb_lt in Hpos as Hpos'. rewrite Hpos'.
    apply list_lookup_insert_eq. rewrite length_app. cbn. lia.
Qed.

Lemma length_wrappers fns : length (wrappers fns) = length fns.
Proof. apply length_imap. Qed.

Lemma length_slots fns : length (slots fns) = length fns.
Proof. apply length_imap. Qed.

Lemma wrappers_lookup fns i :
  wrappers fns !! i = (fun fn => stageFn fn i) <$> fns !! i.
Proof. apply list_lookup_imap. Qed.

Lemma slots_lookup fns i :
  slots fns !! i =
  (fun _ => match fns !! S i with
            | Some g => stageFn g (S i)
            | None => nil_func
            end) <$> fns !! i.
Proof. apply list_lookup_imap. Qed.

Lemma slots_lookup_next fns i g :
  fns !! S i = Some g -> slots fns !! i = Some (stageFn g (S i)).
Proof.
  intros Hg. rewrite slots_lookup, Hg.
  destruct (lookup_lt_is_Some_2 fns i) as [f Hf].
  - apply lookup_lt_Some in Hg. lia.
  - by rewrite Hf.
Qed.

Lemma slots_lookup_last fns i :
  length fns = S i -> slots fns !! i = Some nil_func.
Proof.
  intros Hn. rewrite slots_lookup.
  destruct (lookup_lt_is_Some_2 fns i) as [f Hf]; [lia|].
  rewrite Hf. cbn. by rewrite (lookup_ge_None_2 fns (S i)) by lia.
Qed.

Lemma wrappers_snoc fns fn :
  wrappers (fns ++ [fn]) = wrappers fns ++ [stageFn fn (length fns)].
Proof.
  unfold wrappers. rewrite imap_app. cbn. by rewrite Nat.add_0_r.
Qed.

Lemma slots_snoc fns fn :
  slots (fns ++ [fn]) =
  if 0 <? length fns
  then <[length fns - 1 := stageFn fn (length fns)]> (slots fns ++ [nil_func])
  else slots fns ++ [nil_func].
Proof.
  apply list_eq. intros i.
  rewrite slots_lookup.
  destruct (Nat.ltb_spec 0 (length fns)) as [Hpos|Hzero].
  - destruct (decide (i = length fns - 1)) as [->|Hne].
    + rewrite list_lookup_insert_eq
        by (rewrite length_app, length_slots; cbn; lia).
      replace (S (length fns - 1)) with (length fns) by lia.
      rewrite list_lookup_middle by done.
      destruct (lookup_lt_is_Some_2 fns (length fns - 1)) as [f Hf]; [lia|].
      by rewrite (lookup_app_l_Some _ _ _ _ Hf).
    + rewrite list_lookup_insert_ne by done.
      destruct (lt_eq_lt_dec i (length fns)) as [[Hlt| ->]|Hgt].
      * rewrite !lookup_app_l by (rewrite ?length_slots; lia).
        rewrite slots_lookup.
        by destruct (fns !! i).
      * rewrite (list_lookup_middle fns [] fn (length fns)) by done.
        rewrite (list_lookup_middle (slots fns) [] nil_func (length fns))
          by (by rewrite length_slots).
        cbn.
        by rewrite lookup_ge_None_2 by (rewrite length_app; cbn; lia).
      * rewrite (lookup_ge_None_2 (fns ++ [fn]) i)
          by (rewrite length_app; cbn; lia).
        by rewrite (lookup_ge_None_2 (slots fns ++ [nil_func]) i)
          by (rewrite length_app, length_slots; cbn; lia).
  - destruct fns; [|cbn in Hzero; lia]. by destruct i.
Qed.

Lemma Add_wired (fns : list ChainStageFunction) fn (s : State) :
  chain s = wired fns (Some Unlocked) ->
  Add fn s = Returned (set_chain (wired (fns ++ [fn]) (Some Unlocked)) s).
Proof.
  intros Hch. rewrite Add_unlocked by (by rewrite Hch).
  rewrite Hch. cbn. rewrite length_slots.
  unfold wired. by rewrite wrappers_snoc, slots_snoc.
Qed.

Lemma AddAll_wired (fns pre : list ChainStageFunction) (s : State) :
  chain s = wired pre (Some Unlocked) ->
  AddAll fns s = Returned (set_chain (wired (pre ++ fns) (Some Unlocked)) s).
Proof.
  revert pre s. induction fns as [|fn fns IH]; intros pre s Hch; cbn.
  - rewrite app_nil_r, <- Hch. by rewrite set_chain_id.
  - rewrite (Add_wired pre) by done. cbn.
    rewrite (IH (pre ++ [fn])) by done.
    by rewrite <- app_assoc.
Qed.

(** A chain that was empty and to which [fns] were added one by one,
    every [Add] having returned, is the wired chain of [fns] (or the
    untouched chain when [fns] is empty). *)
Lemma AddAll_built (fns : list ChainStageFunction) (s s' : State) :
  stages (chain s) = [] -> nexts (chain s) = [] ->
  AddAll fns s = Returned s' ->
  (fns = [] /\ s' = s) \/
  (fns <> [] /\ s' = set_chain (wired fns (Some Unlocked)) s).
Proof.
  intros Hst Hnx Hadd. destruct fns as [|fn fns].
  - left. cbn in Hadd. split; congruence.
  - right. split; [done|].
    assert (Hmu : mu (chain s) = Some Unlocked).
    { cbn in Hadd. destruct (Add fn s) as [s1| | | |] eqn:HA; try done.
      by apply Add_returned_inv in HA. }
    assert (Hw : chain s = wired [] (Some Unlocked)).
    { destruct s as [[st nx m] w c]; cbn in *. by subst. }
    rewrite (AddAll_wired (fn :: fns) [] s Hw) in Hadd.
    cbn in Hadd. congruence.
Qed.

(** ** Bodies with a known list of calls *)

Lemma returns_with_record ch c t (run : State -> Outcome) :
  returns_with ch t run ->
  returns_with ch (c :: t) (fun s => run (record c s)).
Proof.
  intros Hrun s Hs. destruct (Hrun (record c s) Hs) as (s' & -> & Hch & Hc).
  exists s'. split_and!; [done..|]. rewrite Hc. cbn. by rewrite <- app_assoc.
Qed.

Lemma panics_with_record ch f c t (run : State -> Outcome) :
  panics_with ch f t run ->
  panics_with ch f (c :: t) (fun s => run (record c s)).
Proof.
  intros Hrun s Hs. destruct (Hrun (record c s) Hs) as (s' & -> & Hch & Hc).
  exists s'. split_and!; [done..|]. rewrite Hc. cbn. by rewrite <- app_assoc.
Qed.

(** Every call returns: the body returns, and the log grows by the logs
    of its calls, in order. *)
Lemma run_body_returns callf self next ch
    (tr : Plan * error -> list Invocation) l b :
  calls_exactly l b ->
  Forall (fun a => returns_with ch (tr a) (callf next a.1 a.2)) l ->
  returns_with ch (concat (map tr l)) (run_body callf self next b).
Proof.
  induction 1 as [|l f k _ IH|l k _ IH|l k _ IH|l plan err k _ IH];
    intros Hall; unfold returns_with in *; intros s Hs; cbn [run_body].
  - exists s. by rewrite app_nil_r.
  - destruct (IH Hall (set_world f s) Hs) as (s' & ? & ? & ?). by exists s'.
  - by apply IH.
  - by apply IH.
  - apply Forall_cons in Hall as [Ha Hl]. cbn in Ha.
    destruct (Ha (hand_on (ByNext self) s) Hs) as (s1 & -> & Hch1 & Hc1).
    cbn.
    destruct (IH Hl s1 Hch1) as (s2 & -> & Hch2 & Hc2).
    exists s2. split_and!; [done..|].
    by rewrite Hc2, Hc1, <- app_assoc.
Qed.

(** The first call panics: so does the body, and nothing after the call
    runs. *)
Lemma run_body_panics callf self next ch f t plan err l b :
  calls_exactly ((plan, err) :: l) b ->
  panics_with ch f t (callf next plan err) ->
  panics_with ch f t (run_body callf self next b).
Proof.
  intros Hb. remember ((plan, err) :: l) as l0 eqn:Hl0.
  induction Hb as [|l1 f' k _ IH|l1 k _ IH|l1 k _ IH|l1 plan' err' k _ IH];
    intros Hp; unfold panics_with in *; intros s Hs; cbn [run_body].
  - done.
  - by apply (IH Hl0 Hp (set_world f' s)).
  - by apply IH.
  - by apply IH.
  - injection Hl0 as -> -> ->.
    destruct (Hp (hand_on (ByNext self) s) Hs) as (s1 & -> & ? & ?).
    by exists s1.
Qed.

Lemma invocations_cons base fn fns plan err :
  invocations base (fn :: fns) plan err =
  Invoked base fn plan err :: invocations (S base) fns plan err.
Proof.
  unfold invocations. rewrite imap_cons, Nat.add_0_r. f_equal.
  apply imap_ext. intros i x _. cbn. f_equal. lia.
Qed.

Lemma invocations_app base fns1 fns2 plan err :
  invocations base (fns1 ++ fns2) plan err =
  invocations base fns1 plan err ++
  invocations (base + length fns1) fns2 plan err.
Proof.
  unfold invocations. rewrite imap_app. f_equal.
  apply imap_ext. intros i x _. cbn. f_equal. lia.
Qed.

(** ** Walking down a wired chain *)

(** Line 42, when slot [i] holds [next]. *)
Lemma invoke_returns ch i next fn fuel plan err t :
  nexts ch !! i = Some next ->
  returns_with ch t (run_body (invoke fuel) i next (fn plan err)) ->
  returns_with ch (Invoked i fn plan err :: t)
    (invoke (S fuel) (stageFn fn i) plan err).
Proof.
  intros Hn Hrun s Hs. cbn [invoke]. rewrite Hs, Hn.
  by apply (returns_with_record ch (Invoked i fn plan err) t _ Hrun).
Qed.

Lemma invoke_panics ch i next fn fuel plan err f t :
  nexts ch !! i = Some next ->
  panics_with ch f t (run_body (invoke fuel) i next (fn plan err)) ->
  panics_with ch f (Invoked i fn plan err :: t)
    (invoke (S fuel) (stageFn fn i) plan err).
Proof.
  intros Hn Hrun s Hs. cbn [invoke]. rewrite Hs, Hn.
  by apply (panics_with_record ch f (Invoked i fn plan err) t _ Hrun).
Qed.

Lemma invoke_stageFn fuel fn i plan err s next :
  nexts (chain s) !! i = Some next ->
  invoke (S fuel) (stageFn fn i) plan err s =
  run_body (invoke fuel) i next (fn plan err)
    (record (Invoked i fn plan err) s).
Proof. intros Hnext. cbn [invoke]. by rewrite Hnext. Qed.

Lemma invoke_nil fuel plan err s :
  invoke fuel nil_func plan err s = Panicked NilFuncCall s.
Proof. by destruct fuel. Qed.

Lemma invoke_nil_panics ch fuel plan err :
  panics_with ch NilFuncCall [] (invoke fuel nil_func plan err).
Proof.
  intros s Hs. exists s. destruct fuel; cbn; by rewrite app_nil_r.
Qed.

Section WiredChain.

(** A chain whose slots are those [Add] leaves after adding [fns]. *)
Variable fns : list ChainStageFunction.
Variable ch : Chain.
Hypothesis Hslots : nexts ch = slots fns.

(** Stages that all forward: wrapper [length pre] runs the rest of the
    chain in order, and the last stage's call of its nil slot panics. *)
Lemma invoke_forwarding_panics :
  Forall forwards fns ->
  forall suf pre fn fuel plan err,
    fns = pre ++ suf -> suf !! 0 = Some fn -> length suf <= fuel ->
    panics_with ch NilFuncCall (invocations (length pre) suf plan err)
      (invoke fuel (stageFn fn (length pre)) plan err).
Proof.
  intros Hfw. induction suf as [|fn' suf IH]; intros pre fn fuel plan err
    Hfns Hhd Hfuel; [done|].
  injection Hhd as ->.
  destruct fuel as [|fuel]; [cbn in Hfuel; lia|].
  assert (Hfn : forwards fn).
  { apply (Forall_lookup_1 _ _ (length pre) _ Hfw).
    subst fns. by apply list_lookup_middle. }
  rewrite invocations_cons.
  destruct suf as [|g suf].
  - apply (invoke_panics _ _ nil_func).
    + rewrite Hslots. apply slots_lookup_last. subst fns.
      rewrite length_app. cbn. lia.
    + apply (run_body_panics _ _ _ _ _ _ plan err []); [apply Hfn|].
      apply invoke_nil_panics.
  - apply (invoke_panics _ _ (stageFn g (S (length pre)))).
    + rewrite Hslots. apply slots_lookup_next. subst fns.
      rewrite lookup_app_r by lia.
      by replace (S (length pre) - length pre) with 1 by lia.
    + apply (run_body_panics _ _ _ _ _ _ plan err []); [apply Hfn|].
      replace (S (length pre)) with (length (pre ++ [fn]))
        by (rewrite length_app; cbn; lia).
      apply IH; [by rewrite <- app_assoc|done|cbn in *; lia].
Qed.

(** One stage whose calls are [l], followed by a stage whose wrapper
    returns with log [T] of its arguments: the stage returns, and the rest of
    the chain has run once per call. *)
Lemma invoke_stage_returns i fn r l (T : Plan * error -> list Invocation)
    bound fuel plan err :
  fns !! i = Some fn -> fns !! S i = Some r ->
  calls_exactly l (fn plan err) ->
  (forall fuel' a, bound <= fuel' ->
     returns_with ch (T a) (invoke fuel' (stageFn r (S i)) a.1 a.2)) ->
  S bound <= fuel ->
  returns_with ch (Invoked i fn plan err :: concat (map T l))
    (invoke fuel (stageFn fn i) plan err).
Proof.
  intros Hfn Hr Hl Hnext Hfuel.
  destruct fuel as [|fuel]; [lia|].
  apply (invoke_returns _ _ (stageFn r (S i))).
  - rewrite Hslots. by apply slots_lookup_next.
  - apply run_body_returns; [done|].
    apply Forall_forall. intros a _. apply Hnext. lia.
Qed.

(** A stage that calls nothing returns, whatever its slot holds. *)
Lemma invoke_silent_returns i fn fuel plan err :
  fns !! i = Some fn ->
  calls_exactly [] (fn plan err) ->
  1 <= fuel ->
  returns_with ch [Invoked i fn plan err]
    (invoke fuel (stageFn fn i) plan err).
Proof.
  intros Hfn Hl Hfuel.
  destruct fuel as [|fuel]; [lia|].
  destruct (lookup_lt_is_Some_2 (nexts ch) i) as [next Hnext].
  { rewrite Hslots, length_slots. by apply lookup_lt_Some in Hfn. }
  apply (invoke_returns _ _ next); [done|].
  by apply (run_body_returns _ _ _ _ (fun _ => []) [] _ Hl).
Qed.

(** Forwarding stages [pre] in front of a stage whose wrapper returns with
    log [T]. *)
Lemma invoke_prefix_returns (T : Plan * error -> list Invocation)
    rest r bound :
  rest !! 0 = Some r ->
  forall pre pre0 hd fuel plan err,
    fns = pre0 ++ pre ++ rest ->
    Forall forwards pre ->
    (pre ++ rest) !! 0 = Some hd ->
    (forall fuel' a, bound <= fuel' ->
       returns_with ch (T a)
         (invoke fuel' (stageFn r (length pre0 + length pre)) a.1 a.2)) ->
    length pre + bound <= fuel ->
    returns_with ch
      (invocations (length pre0) pre plan err ++ T (plan, err))
      (invoke fuel (stageFn hd (length pre0)) plan err).
Proof.
  intros Hr. induction pre as [|f pre IH];
    intros pre0 hd fuel plan err Hfns Hfw Hhd Hnext Hfuel.
  - cbn in Hhd. assert (hd = r) as -> by congruence.
    cbn in Hnext. rewrite Nat.add_0_r in Hnext.
    apply (Hnext fuel (plan, err)). cbn in Hfuel. lia.
  - injection Hhd as ->. apply Forall_cons in Hfw as [Hf Hfw].
    assert (exists g, (pre ++ rest) !! 0 = Some g) as [g Hg].
    { destruct pre; cbn; eauto. }
    rewrite invocations_cons. cbn [app].
    replace (invocations (S (length pre0)) pre plan err ++ T (plan, err))
      with (concat (map (fun a => invocations (S (length pre0)) pre a.1 a.2 ++ T a)
                      [(plan, err)]))
      by (cbn; by rewrite app_nil_r).
    apply (invoke_stage_returns (length pre0) hd g [(plan, err)] _
             (length pre + bound)).
    + subst fns. by apply list_lookup_middle.
    + subst fns. rewrite lookup_app_r by lia.
      by replace (S (length pre0) - length pre0) with 1 by lia.
    + apply Hf.
    + intros fuel' a Hfuel'.
      replace (S (length pre0)) with (length (pre0 ++ [hd]))
        by (rewrite length_app; cbn; lia).
      destruct a as [plan' err'].
      apply IH; [by rewrite <- app_assoc|done|done| |done].
      intros fuel'' a Hfuel''.
      replace (length (pre0 ++ [hd]) + length pre)
        with (length pre0 + length (hd :: pre))
        by (rewrite length_app; cbn; lia).
      by apply Hnext.
    + cbn in Hfuel. lia.
Qed.

(** Forwarding stages [mids] and then a stage that calls nothing, at the
    end of the chain: the wrapper of the first returns after each has run
    once. *)
Lemma invoke_pipeline_returns pre0 mids last hd fuel plan err :
  fns = pre0 ++ mids ++ [last] ->
  Forall forwards mids ->
  (forall plan' err', calls_exactly [] (last plan' err')) ->
  (mids ++ [last]) !! 0 = Some hd ->
  S (length mids) <= fuel ->
  returns_with ch
    (invocations (length pre0) (mids ++ [last]) plan err)
    (invoke fuel (stageFn hd (length pre0)) plan err).
Proof.
  intros Hfns Hfw Hlast Hhd Hfuel.
  rewrite invocations_app.
  change (invocations (length pre0 + length mids) [last] plan err)
    with ((fun a : Plan * error =>
             [Invoked (length pre0 + length mids + 0) last a.1 a.2]) (plan, err)).
  apply (invoke_prefix_returns _ [last] last 1); try done; [|lia].
  intros fuel' a Hfuel'. rewrite Nat.add_0_r.
  apply invoke_silent_returns; [|done|done].
  subst fns. rewrite app_assoc.
  apply list_lookup_middle. by rewrite length_app.
Qed.

(** A stage whose calls are [l], followed by a stage that calls nothing:
    the second is called once per call of [l], with what that call
    passed. *)
Lemma invoke_before_silent_returns i f g l fuel plan err :
  fns !! i = Some f -> fns !! S i = Some g ->
  calls_exactly l (f plan err) ->
  (forall plan' err', calls_exactly [] (g plan' err')) ->
  2 <= fuel ->
  returns_with ch
    (Invoked i f plan err :: map (fun a => Invoked (S i) g a.1 a.2) l)
    (invoke fuel (stageFn f i) plan err).
Proof.
  intros Hf Hg Hl Hsilent Hfuel.
  replace (map (fun a : Plan * error => Invoked (S i) g a.1 a.2) l)
    with (concat (map (fun a : Plan * error => [Invoked (S i) g a.1 a.2]) l)).
  - apply (invoke_stage_returns i f g l _ 1); try done.
    intros fuel' a Hfuel'. by apply invoke_silent_returns.
  - clear. induction l as [|a l IH]; [done|]. cbn. by rewrite IH.
Qed.

End WiredChain.

(** ** [Process] on a wired chain *)

Lemma Process_wired_start fns fuel plan s f0 :
  chain s = wired fns (Some Unlocked) -> fns !! 0 = Some f0 ->
  Process fuel plan s =
  deferred Unlock (invoke fuel (stageFn f0 0) plan None (set_mu Locked s)) /\
  chain (set_mu Locked s) = wired fns (Some Locked).
Proof.
  intros Hs Hf0. unfold Process, Process_with, Lock, set_mu.
  rewrite Hs. cbn. rewrite length_wrappers, wrappers_lookup, Hf0.
  destruct fns; [done|]. done.
Qed.

Lemma Process_wired_panics fns fuel plan s f0 f t :
  chain s = wired fns (Some Unlocked) -> fns !! 0 = Some f0 ->
  panics_with (wired fns (Some Locked)) f t
    (invoke fuel (stageFn f0 0) plan None) ->
  exists s', Process fuel plan s = Panicked f s' /\
             chain s' = chain s /\ calls s' = calls s ++ t.
Proof.
  intros Hs Hf0 Hrun.
  destruct (Process_wired_start fns fuel plan s f0 Hs Hf0) as [-> Hl].
  destruct (Hrun _ Hl) as (s' & -> & Hch & Hc).
  exists (set_mu Unlocked s'). unfold deferred, Unlock. rewrite Hch. cbn.
  by rewrite Hch, Hs.
Qed.

Lemma Process_wired_returns fns fuel plan s f0 t :
  chain s = wired fns (Some Unlocked) -> fns !! 0 = Some f0 ->
  returns_with (wired fns (Some Locked)) t
    (invoke fuel (stageFn f0 0) plan None) ->
  exists s', Process fuel plan s = Returned s' /\
             chain s' = chain s /\ calls s' = calls s ++ t.
Proof.
  intros Hs Hf0 Hrun.
  destruct (Process_wired_start fns fuel plan s f0 Hs Hf0) as [-> Hl].
  destruct (Hrun _ Hl) as (s' & -> & Hch & Hc).
  exists (set_mu Unlocked s'). unfold deferred, Unlock. rewrite Hch. cbn.
  by rewrite Hch, Hs.
Qed.

(** With no stage, [Process] calls nothing, whatever the mutex. *)
Lemma Process_no_stage_calls fuel plan s :
  stages (chain s) = [] ->
  calls (final_state (Process fuel plan s)) = calls s.
Proof.
  intros Hst. unfold Process, Process_with, Lock.
  destruct (mu (chain s)) as [[]|]; cbn; [|done..].
  rewrite Hst. cbn. done.
Qed.

(** C1 (order).  Take an empty chain, add [S1 .. Sn] in that order, every
    [Add] returning, where every stage calls its continuation once, on every
    path, with the plan and error it received.  Then [Process(plan)] calls
    exactly [S1 .. Sn], in that order, each once and each with [plan] (and
    the nil error).  When there is a stage at all, the run ends in the
    panic of [Sn]'s call of its nil continuation. *)
Theorem Process_invokes_in_order fns s s' plan fuel :
  stages (chain s) = [] -> nexts (chain s) = [] ->
  AddAll fns s = Returned s' ->
  Forall forwards fns ->
  length fns <= fuel ->
  calls (final_state (Process fuel plan s')) =
    calls s' ++ invocations 0 fns plan None /\
  (fns <> [] ->
   exists s'', Process fuel plan s' = Panicked NilFuncCall s'' /\
               chain s'' = chain s').
Proof.
  intros Hst Hnx Hadd Hfw Hfuel.
  destruct (AddAll_built fns s s' Hst Hnx Hadd) as [[-> ->]|[Hne ->]].
  - split; [|done]. rewrite Process_no_stage_calls by done.
    cbn. by rewrite app_nil_r.
  - destruct fns as [|f0 fns]; [done|].
    destruct (Process_wired_panics (f0 :: fns) fuel plan
                (set_chain (wired (f0 :: fns) (Some Unlocked)) s) f0
                NilFuncCall (invocations 0 (f0 :: fns) plan None))
      as (s'' & Hp & Hch & Hc); [done|done| |].
    + by apply (invoke_forwarding_panics (f0 :: fns)
                  (wired (f0 :: fns) (Some Locked)) eq_refl Hfw
                  (f0 :: fns) [] f0 fuel plan None).
    + rewrite Hp. split; [done|]. intros _. by exists s''.
Qed.

(** A stage that calls twice, in front of forwarding stages and a last
    stage that calls nothing: its wrapper returns after the stages behind it
    have run twice. *)
Lemma invoke_twice_returns fns ch pre d mids last a1 a2 fuel plan err :
  nexts ch = slots fns ->
  fns = pre ++ d :: mids ++ [last] ->
  calls_twice a1 a2 d ->
  Forall forwards mids ->
  (forall plan' err', calls_exactly [] (last plan' err')) ->
  S (S (length mids)) <= fuel ->
  returns_with ch
    (Invoked (length pre) d plan err ::
     invocations (S (length pre)) (mids ++ [last])
       (a1 plan err).1 (a1 plan err).2 ++
     invocations (S (length pre)) (mids ++ [last])
       (a2 plan err).1 (a2 plan err).2)
    (invoke fuel (stageFn d (length pre)) plan err).
Proof.
  intros Hslots Hfns Hd Hmids Hlast Hfuel.
  assert (exists h, (mids ++ [last]) !! 0 = Some h) as [h Hh].
  { destruct mids; cbn; eauto. }
  set (suffix := fun b : Plan * error =>
         invocations (S (length pre)) (mids ++ [last]) b.1 b.2).
  replace (invocations (S (length pre)) (mids ++ [last])
             (a1 plan err).1 (a1 plan err).2 ++
           invocations (S (length pre)) (mids ++ [last])
             (a2 plan err).1 (a2 plan err).2)
    with (concat (map suffix [a1 plan err; a2 plan err]))
    by (unfold suffix; cbn; by rewrite app_nil_r).
  apply (invoke_stage_returns fns ch Hslots (length pre) d h _ suffix
           (S (length mids))); try done.
  - subst fns. by apply list_lookup_middle.
  - subst fns. rewrite lookup_app_r by lia.
    by replace (S (length pre) - length pre) with 1 by lia.
  - intros fuel' b Hfuel'. unfold suffix.
    replace (S (length pre)) with (length (pre ++ [d]))
      by (rewrite length_app; cbn; lia).
    apply (invoke_pipeline_returns fns ch Hslots); try done.
    subst fns. by rewrite <- app_assoc.
Qed.

(** C8 (re-invocation), amended.  Take an empty chain and add
    [pre ++ d :: mids ++ [last]], every [Add] returning, where [d] calls its
    continuation twice (handing on [a1 plan err], then [a2 plan err]), the
    stages of [mids] forward and [last] returns without calling its own
    continuation.  Then every call of the wrapper of [d] returns after the
    stages behind [d] have run twice, in order: once on what the first call
    handed on and once more on what the second did.  When the stages of
    [pre] forward too, this is what a [Process(plan)] run does after
    running them. *)
Theorem continuation_called_twice_runs_suffix_twice
    pre d mids last a1 a2 s s' :
  stages (chain s) = [] -> nexts (chain s) = [] ->
  AddAll (pre ++ d :: mids ++ [last]) s = Returned s' ->
  calls_twice a1 a2 d ->
  Forall forwards mids ->
  (forall plan' err', calls_exactly [] (last plan' err')) ->
  (forall fuel plan err s0,
     nexts (chain s0) = nexts (chain s') ->
     S (S (length mids)) <= fuel ->
     exists s1,
       invoke fuel (stageFn d (length pre)) plan err s0 = Returned s1 /\
       chain s1 = chain s0 /\
       calls s1 =
         calls s0 ++
         Invoked (length pre) d plan err ::
         invocations (S (length pre)) (mids ++ [last])
           (a1 plan err).1 (a1 plan err).2 ++
         invocations (S (length pre)) (mids ++ [last])
           (a2 plan err).1 (a2 plan err).2) /\
  (Forall forwards pre ->
   forall fuel plan,
     length (pre ++ d :: mids ++ [last]) <= fuel ->
     exists s'',
       Process fuel plan s' = Returned s'' /\
       chain s'' = chain s' /\
       calls s'' =
         calls s' ++ invocations 0 pre plan None ++
         Invoked (length pre) d plan None ::
         invocations (S (length pre)) (mids ++ [last])
           (a1 plan None).1 (a1 plan None).2 ++
         invocations (S (length pre)) (mids ++ [last])
           (a2 plan None).1 (a2 plan None).2).
Proof.
  intros Hst Hnx Hadd Hd Hmids Hlast.
  set (fns := pre ++ d :: mids ++ [last]) in *.
  destruct (AddAll_built fns s s' Hst Hnx Hadd) as [[Hnil _]|[_ ->]].
  { by destruct pre. }
  split.
  - intros fuel plan err s0 Hs0 Hfuel.
    by apply (invoke_twice_returns fns (chain s0) pre d mids last a1 a2).
  - intros Hpre fuel plan Hfuel.
    subst fns. rewrite length_app in Hfuel. cbn in Hfuel.
    rewrite length_app in Hfuel. cbn in Hfuel.
    set (fns := pre ++ d :: mids ++ [last]) in *.
    assert (exists f0, fns !! 0 = Some f0) as [f0 Hf0].
    { subst fns. destruct pre; cbn; eauto. }
    apply (Process_wired_returns fns fuel plan _ f0); [done|done|].
    apply (invoke_prefix_returns fns (wired fns (Some Locked)) eq_refl
             (fun a : Plan * error =>
                Invoked (length pre) d a.1 a.2 ::
                invocations (S (length pre)) (mids ++ [last])
                  (a1 a.1 a.2).1 (a1 a.1 a.2).2 ++
                invocations (S (length pre)) (mids ++ [last])
                  (a2 a.1 a.2).1 (a2 a.1 a.2).2)
             (d :: mids ++ [last]) d (S (S (length mids))) eq_refl pre [] f0);
      try done; [|lia].
    intros fuel' a Hfuel'. cbn [length Nat.add].
    by apply (invoke_twice_returns fns _ pre d mids last a1 a2).
Qed.

(** ** Invariants of arbitrary stage bodies *)

Section Invariant.

Variable I : State -> Prop.
Variable G : Outcome -> Prop.
Hypothesis G_returned : forall s, G (Returned s) <-> I s.
Hypothesis G_panicked : forall f s, G (Panicked f s) <-> I s.
Hypothesis G_diverged : forall s, I s -> G (Diverged s).
Hypothesis I_set_world : forall f s, I s -> I (set_world f s).
Hypothesis I_keep : forall f s, I s -> I (keep f s).

Lemma and_then_inv o (k : State -> Outcome) :
  G o -> (forall s, I s -> G (k s)) -> G (and_then o k).
Proof.
  destruct o; cbn; auto. intros HG Hk. by apply Hk, G_returned.
Qed.

Lemma protect_inv o (k : State -> Outcome) :
  G o -> (forall s, I s -> G (k s)) ->
  G match o with
    | Returned s' | Panicked _ s' => k s'
    | Blocked s' => Blocked s'
    | Diverged s' => Diverged s'
    | OutOfFuel s' => OutOfFuel s'
    end.
Proof.
  destruct o as [s|f s|s|s|s]; cbn; auto; intros HG Hk; apply Hk.
  - by apply G_returned.
  - by apply (G_panicked f).
Qed.

(** A body keeps [I] when each thing it can call does. *)
Lemma run_body_inv callf self next b :
  (forall plan err s,
     I s -> G (callf next plan err (hand_on (ByNext self) s))) ->
  (forall f plan err s,
     I s -> G (callf f plan err (hand_on (ByKept self) s))) ->
  (forall fn s, I s -> G (Add fn s)) ->
  (forall s, I s -> G (Clear s)) ->
  (forall plan s, I s -> G (Process_with callf plan s)) ->
  forall s, I s -> G (run_body callf self next b s).
Proof.
  intros Hnext Hkept HAdd HClear HProcess.
  induction b as [|f k IH|k IH|k IH|plan err k IH|fn _ k IH|plan k IH|k IH
                  |k IH|i plan err k IH| |b' IHb k IHk|];
    intros s Hs; cbn [run_body].
  - by apply G_returned.
  - apply IH. by apply I_set_world.
  - by apply IH.
  - by apply IH.
  - apply and_then_inv; [by apply Hnext|]. apply IH.
  - apply and_then_inv; [by apply HAdd|]. apply IH.
  - apply and_then_inv; [by apply HProcess|]. apply IH.
  - apply and_then_inv; [by apply HClear|]. apply IH.
  - apply IH. by apply I_keep.
  - destruct (kept s !! i) as [f|]; [|by apply G_panicked].
    apply and_then_inv; [by apply Hkept|]. apply IH.
  - by apply G_panicked.
  - apply (protect_inv _ (run_body callf self next k)); [by apply IHb|].
    apply IHk.
  - by apply G_diverged.
Qed.


End Invariant.

(** ** The two slices keep the same length *)

Lemma Add_same_length fn s :
  same_length s -> same_length (final_state (Add fn s)).
Proof.
  unfold same_length, Add, Lock. intros Hlen.
  destruct (mu (chain s)) as [[]|]; cbn; [|done..].
  case_match; rewrite ?length_insert, !length_app; cbn; lia.
Qed.

Lemma Clear_same_length s : same_length (final_state (Clear s)).
Proof. done. Qed.

Lemma deferred_Unlock_same_length o :
  same_length (final_state o) ->
  same_length (final_state (deferred Unlock o)).
Proof.
  destruct o as [s|f s|s|s|s]; cbn; try done; unfold Unlock;
    destruct (mu (chain s)) as [[]|]; cbn; done.
Qed.

Lemma Process_with_same_length callf plan s :
  (forall f plan' err s', same_length s' ->
     same_length (final_state (callf f plan' err s'))) ->
  same_length s -> same_length (final_state (Process_with callf plan s)).
Proof.
  intros Hcall Hlen. unfold Process_with, Lock.
  destruct (mu (chain s)) as [[]|]; cbn [and_then final_state]; [|done..].
  apply deferred_Unlock_same_length.
  repeat case_match; try done. by apply Hcall.
Qed.

Lemma invoke_same_length fuel :
  forall f plan err s,
    same_length s -> same_length (final_state (invoke fuel f plan err s)).
Proof.
  induction fuel as [|fuel IH]; intros [|fn i] plan err s Hlen; cbn; try done.
  destruct (_ !! i) as [next|]; [|done].
  apply (run_body_inv same_length (fun o => same_length (final_state o)));
    try done.
  - intros. by apply IH.
  - intros. by apply IH.
  - intros. by apply Add_same_length.
  - intros. by apply Process_with_same_length.
Qed.

(** C7 (length invariant).  The chain [CreateChain] returns has slices of
    the same length, and from a state where they have the same length every
    [Add], [Clear] and [Process] ends, however it ends, in a state where
    they do.  [Process] is taken at every fuel, that is also cut short at the
    entry of any stage function: the states in which stage code gets to
    look at the chain are covered. *)
Theorem slices_keep_same_length s :
  same_length s ->
  (forall (w : World) (kp : list ChainStageNextFunction)
          (t : list Invocation) (h : list Handoff),
     same_length (mkState CreateChain w kp t h)) /\
  (forall fn, same_length (final_state (Add fn s))) /\
  same_length (final_state (Clear s)) /\
  (forall fuel plan, same_length (final_state (Process fuel plan s))).
Proof.
  intros Hlen. split_and!.
  - done.
  - intros. by apply Add_same_length.
  - apply Clear_same_length.
  - intros. apply Process_with_same_length; [|done].
    intros. by apply invoke_same_length.
Qed.

(** ** A stage that does not call its continuation *)

(** While the mutex is held, a stage that calls [Add] or [Process] on its
    own chain waits for ever. *)
Lemma Add_blocked fn s : mu (chain s) = Some Locked -> Add fn s = Blocked s.
Proof. intros Hmu. unfold Add, Lock. by rewrite Hmu. Qed.

Lemma Process_with_blocked callf plan s :
  mu (chain s) = Some Locked -> Process_with callf plan s = Blocked s.
Proof. intros Hmu. unfold Process_with, Lock. by rewrite Hmu. Qed.

Lemma held_over_Clear st nx s :
  held_over st nx s -> held_over st nx (final_state (Clear s)).
Proof. intros [Hmu _]. split; cbn; auto. Qed.

(** The log of handoffs only grows, whatever is called. *)
Lemma invoke_grown_from st nx h0 fuel :
  forall f plan err s,
    grown_from st nx h0 s ->
    grown_from st nx h0 (final_state (invoke fuel f plan err s)).
Proof.
  assert (Hon : forall h s,
    grown_from st nx h0 s -> grown_from st nx h0 (hand_on h s)).
  { intros h s [Hheld [u Hu]]. split; [done|].
    exists (u ++ [h]). cbn. by rewrite Hu, <- app_assoc. }
  induction fuel as [|fuel IH]; intros [|fn i] plan err s Hs; cbn; try done.
  destruct (_ !! i) as [next|]; [|done].
  apply (run_body_inv (grown_from st nx h0)
           (fun o => grown_from st nx h0 (final_state o))); try done.
  - intros. by apply IH, Hon.
  - intros. by apply IH, Hon.
  - intros fn' s0 Hs0. pose proof Hs0 as [[Hmu _] _]. by rewrite Add_blocked.
  - intros s0 [Hheld Hu]. split; [by apply held_over_Clear|done].
  - intros plan' s0 Hs0. pose proof Hs0 as [[Hmu _] _].
    by rewrite Process_with_blocked.
Qed.

Lemma halts_at_hand_on fns k t0 h0 h s :
  halts_at fns k t0 h0 s -> halts_at fns k t0 h0 (hand_on h s).
Proof.
  intros (Hheld & u & Hu & Hlog). split; [done|].
  exists (u ++ [h]). cbn. split; [by rewrite Hu, <- app_assoc|].
  destruct Hlog as [Hpast|Hlog]; [left|by right].
  apply Exists_app. by left.
Qed.

Lemma halts_at_record fns k t0 h0 i fn plan err s :
  i <= k -> fns !! i = Some fn ->
  halts_at fns k t0 h0 s ->
  halts_at fns k t0 h0 (record (Invoked i fn plan err) s).
Proof.
  intros Hi Hfn (Hheld & u & Hu & Hlog). split; [done|].
  exists u. split; [done|].
  destruct Hlog as [Hpast|(t & Hc & Ht)]; [by left|right].
  exists (t ++ [Invoked i fn plan err]). cbn. split.
  - by rewrite Hc, <- app_assoc.
  - apply Forall_app. split; [done|]. by apply Forall_singleton.
Qed.

(** Once a handoff has gone past position [k], nothing more is asked of
    the log of calls. *)
Lemma halts_at_past fns k t0 h0 h s s' :
  halts_at fns k t0 h0 s -> goes_past k h = true ->
  grown_from (wrappers fns) (slots fns) (handoffs (hand_on h s)) s' ->
  halts_at fns k t0 h0 s' /\
  exists u, handoffs s' = h0 ++ u /\ Exists (fun h' => goes_past k h' = true) u.
Proof.
  intros (_ & u & Hu & _) Hh [Hheld [u' Hu']].
  assert (Hpast : handoffs s' = h0 ++ (u ++ [h] ++ u') /\
                  Exists (fun h' => goes_past k h' = true) (u ++ [h] ++ u')).
  { split.
    - rewrite Hu'. cbn. by rewrite Hu, <- !app_assoc.
    - apply Exists_app. right. by apply Exists_cons_hd. }
  split; [|by exists (u ++ [h] ++ u')].
  split; [done|]. exists (u ++ [h] ++ u'). split; [apply Hpast|].
  left. apply Hpast.
Qed.

(** A call of the wrapper of a stage at a position up to [k] keeps
    [halts_at]; with fuel for the stages from that position on, it runs
    out of fuel only after a handoff that goes past [k]. *)
Lemma invoke_halts_at fns k t0 h0 (enough : bool) :
  forall fuel i fn plan err s,
    fns !! i = Some fn -> i <= k ->
    (enough = true -> length fns - i <= fuel) ->
    halts_at fns k t0 h0 s ->
    halts_at fns k t0 h0
      (final_state (invoke fuel (stageFn fn i) plan err s)) /\
    (enough = true ->
     out_of_fuel (invoke fuel (stageFn fn i) plan err s) = true ->
     exists u,
       handoffs (final_state (invoke fuel (stageFn fn i) plan err s)) =
         h0 ++ u /\
       Exists (fun h => goes_past k h = true) u).
Proof.
  set (G := fun o : Outcome =>
    halts_at fns k t0 h0 (final_state o) /\
    (enough = true -> out_of_fuel o = true ->
     exists u, handoffs (final_state o) = h0 ++ u /\
               Exists (fun h => goes_past k h = true) u)).
  assert (Hpast : forall fuel f plan err h s,
    halts_at fns k t0 h0 s -> goes_past k h = true ->
    G (invoke fuel f plan err (hand_on h s))).
  { intros fuel f plan err h s Hs Hh.
    destruct (halts_at_past fns k t0 h0 h s
                (final_state (invoke fuel f plan err (hand_on h s))) Hs Hh)
      as [Hfinal Hu]; [|by split].
    apply invoke_grown_from. split; [apply Hs|].
    by exists []; rewrite app_nil_r. }
  induction fuel as [|fuel IH]; intros i fn plan err s Hfn Hi Hfuel Hs.
  { cbn. split; [done|]. intros Henough _. apply lookup_lt_Some in Hfn.
    specialize (Hfuel Henough). lia. }
  cbn [invoke].
  destruct (nexts (chain s) !! i) as [next|] eqn:Hnext; [|by split].
  apply (run_body_inv (halts_at fns k t0 h0) G).
  - intros s0. cbn. split; [by intros [? _]|by split].
  - intros f s0. cbn. split; [by intros [? _]|by split].
  - intros s0 Hs0. by split.
  - done.
  - done.
  - intros plan' err' s0 Hs0.
    destruct (decide (i = k)) as [->|Hne].
    { apply Hpast; [done|]. cbn. by apply Nat.eqb_eq. }
    destruct Hs as ([_ [[_ Hnx]|[_ Hnx]]] & _); rewrite Hnx in Hnext;
      [|by destruct i].
    rewrite slots_lookup, Hfn in Hnext. cbn in Hnext.
    destruct (fns !! S i) as [g|] eqn:Hg; injection Hnext as <-.
    + apply IH; [done|lia|intros; specialize (Hfuel H); lia|].
      by apply halts_at_hand_on.
    + rewrite invoke_nil. split; [by apply halts_at_hand_on|done].
  - intros f plan' err' s0 Hs0. by apply Hpast.
  - intros fn' s0 Hs0. rewrite Add_blocked by apply Hs0. by split.
  - intros s0 (Hheld & Hlog). split; [|done].
    split; [by apply held_over_Clear|done].
  - intros plan' s0 Hs0. rewrite Process_with_blocked by apply Hs0. by split.
  - by apply halts_at_record.
Qed.

Lemma deferred_Unlock_held o :
  mu (chain (final_state o)) = Some Locked ->
  out_of_fuel (deferred Unlock o) = out_of_fuel o /\
  calls (final_state (deferred Unlock o)) = calls (final_state o) /\
  handoffs (final_state (deferred Unlock o)) = handoffs (final_state o).
Proof.
  destruct o as [s|f s|s|s|s]; cbn; intros Hmu; try done;
    unfold Unlock; by rewrite Hmu.
Qed.

(** C2 (short circuit), amended.  Take an empty chain and add the stages
    [pre ++ sk :: post], every [Add] returning; the stage functions are
    arbitrary.  Consider a [Process] run, complete or cut short at any
    depth, in which [sk] has not called its continuation, on any of its
    calls, and no stage function has called a continuation that was kept:
    the handoffs of the run hold no [ByNext (length pre)] and no [ByKept].
    Then every call the run has logged is a call of a stage at a position
    up to that of [sk], so no stage of [post] has been invoked; and with
    fuel for the depth of the chain the run has come to an end. *)
Theorem stage_without_next_halts_pipeline pre sk post s s' plan fuel :
  stages (chain s) = [] -> nexts (chain s) = [] ->
  AddAll (pre ++ sk :: post) s = Returned s' ->
  Forall (fun h => goes_past (length pre) h = false)
    (handoffs_since s' (final_state (Process fuel plan s'))) ->
  (length (pre ++ sk :: post) <= fuel ->
   out_of_fuel (Process fuel plan s') = false) /\
  exists t,
    calls (final_state (Process fuel plan s')) = calls s' ++ t /\
    Forall (fun c => inv_idx c <= length pre /\
                     (pre ++ sk :: post) !! inv_idx c = Some (inv_fn c)) t.
Proof.
  intros Hst Hnx Hadd.
  set (fns := pre ++ sk :: post) in *.
  destruct (AddAll_built fns s s' Hst Hnx Hadd) as [[Hnil _]|[_ ->]].
  { by destruct pre. }
  assert (exists f0, fns !! 0 = Some f0) as [f0 Hf0].
  { subst fns. destruct pre; cbn; eauto. }
  set (s1 := set_chain (wired fns (Some Unlocked)) s).
  unfold handoffs_since.
  destruct (Process_wired_start fns fuel plan s1 f0 eq_refl Hf0) as [-> Hl].
  set (o := invoke fuel (stageFn f0 0) plan None (set_mu Locked s1)).
  assert (Hs1 : halts_at fns (length pre) (calls s1) (handoffs s1)
                  (set_mu Locked s1)).
  { split; [split; [done|by left]|]. exists []. split; [by rewrite app_nil_r|].
    right. exists []. split; [by rewrite app_nil_r|done]. }
  assert (Ho : forall enough : bool,
    (enough = true -> length fns <= fuel) ->
    halts_at fns (length pre) (calls s1) (handoffs s1) (final_state o) /\
    (enough = true -> out_of_fuel o = true ->
     exists u, handoffs (final_state o) = handoffs s1 ++ u /\
               Exists (fun h => goes_past (length pre) h = true) u)).
  { intros enough Henough.
    apply (invoke_halts_at fns (length pre) (calls s1) (handoffs s1) enough);
      [done|lia|intros H; specialize (Henough H); lia|done]. }
  destruct (Ho false) as [([Hmu _] & u & Hu & Hlog) _]; [done|].
  destruct (deferred_Unlock_held o Hmu) as (Hfu & -> & ->).
  rewrite Hu, drop_app_length. intros Hrun.
  assert (Hnone : ~ Exists (fun h => goes_past (length pre) h = true) u).
  { intros Hex. apply Exists_exists in Hex as (h & Hin & Hh).
    apply (Forall_forall _ u) with (x := h) in Hrun; [congruence|done]. }
  split.
  - intros Hfuel. rewrite Hfu.
    destruct (Ho true) as [_ Hcut]; [done|].
    destruct (out_of_fuel o); [|done].
    destruct (Hcut eq_refl eq_refl) as (u' & Hu' & Hex).
    rewrite Hu in Hu'. apply app_inv_head in Hu' as <-. done.
  - destruct Hlog as [Hex|Hlog]; [done|exact Hlog].
Qed.

(** ** The depth of a run *)



(** ** [Process] reads the slices and writes neither *)

Lemma invoke_held_over st nx fuel :
  forall f plan err s,
    held_over st nx s ->
    held_over st nx (final_state (invoke fuel f plan err s)).
Proof.
  induction fuel as [|fuel IH]; intros [|fn i] plan err s Hs; cbn; try done.
  destruct (_ !! i) as [next|]; [|done].
  apply (run_body_inv (held_over st nx)
           (fun o => held_over st nx (final_state o))); try done.
  - intros. by apply IH.
  - intros. by apply IH.
  - intros fn' s0 Hs0. by rewrite Add_blocked by apply Hs0.
  - intros s0 [Hmu _]. split; cbn; auto.
  - intros plan' s0 Hs0. by rewrite Process_with_blocked by apply Hs0.
Qed.

(** A [Process] run leaves both slices as they were, unless a stage has
    called [Clear]; the mutex is free again when the run ends unblocked. *)
Lemma Process_keeps_or_clears fuel plan s :
  mu (chain s) = Some Unlocked ->
  (stages (chain (final_state (Process fuel plan s))) = stages (chain s) /\
   nexts (chain (final_state (Process fuel plan s))) = nexts (chain s)) \/
  (stages (chain (final_state (Process fuel plan s))) = [] /\
   nexts (chain (final_state (Process fuel plan s))) = []).
Proof.
  intros Hmu. unfold Process, Process_with, Lock. rewrite Hmu.
  cbn [and_then].
  assert (Hheld : held_over (stages (chain s)) (nexts (chain s))
                    (set_mu Locked s)).
  { split; cbn; auto. }
  assert (Hdef : forall o,
    held_over (stages (chain s)) (nexts (chain s)) (final_state o) ->
    held_over (stages (chain s)) (nexts (chain s))
      (set_mu Locked (final_state (deferred Unlock o)))).
  { intros [s1|f s1|s1|s1|s1] Hh; cbn in Hh; destruct Hh as [Hm Hsl]; cbn;
      try (by split); unfold Unlock; rewrite Hm; cbn; by split. }
  match goal with |- context [deferred Unlock ?o] =>
    assert (Hinv : held_over (stages (chain s)) (nexts (chain s))
                     (final_state o))
  end.
  { repeat case_match; try done. by apply invoke_held_over. }
  apply Hdef in Hinv. destruct Hinv as [_ Hsl]. exact Hsl.
Qed.

(** X4.  [Process] holds the mutex for the whole run.  Started with the
    mutex free: at the entry of every stage function, at any depth (where
    the interpreter stops when [fuel] runs out there), the mutex is held;
    it is still held when a stage waits for it by calling back into [Add]
    or [Process]; and it is free again when the run has returned or
    panicked. *)
Theorem Process_holds_mutex_throughout fuel plan s :
  mu (chain s) = Some Unlocked ->
  match Process fuel plan s with
  | Returned s' | Panicked _ s' => mu (chain s') = Some Unlocked
  | Blocked s' | Diverged s' | OutOfFuel s' => mu (chain s') = Some Locked
  end.
Proof.
  intros Hmu. unfold Process, Process_with, Lock. rewrite Hmu.
  cbn [and_then].
  assert (Hheld : held_over (stages (chain s)) (nexts (chain s))
                    (set_mu Locked s)).
  { split; cbn; auto. }
  match goal with |- context [deferred Unlock ?o] =>
    assert (Hinv : mu (chain (final_state o)) = Some Locked);
    [|destruct o as [s1|f s1|s1|s1|s1]; cbn in *; unfold Unlock;
      rewrite ?Hinv; by cbn]
  end.
  repeat case_match; try done.
  by apply (invoke_held_over (stages (chain s)) (nexts (chain s))).
Qed.

(** ** The constructor *)

(** C3 (nil mutex).  [CreateChain] leaves [mu] nil.  On the chain it
    returns, with whatever caller state and log, [Add] and [Process] panic
    at [ch.mu.Lock()] and leave the state as it was; [Clear], which never
    touches [mu], returns and leaves it nil too, so every later [Add] and
    [Process] panics the same way. *)
Theorem CreateChain_leaves_mutex_nil
    (w : World) (kp : list ChainStageNextFunction) (t : list Invocation)
    (h : list Handoff) :
  mu (@CreateChain Plan E World) = None /\
  (forall fn,
     Add fn (mkState CreateChain w kp t h) =
     Panicked NilMutex (mkState CreateChain w kp t h)) /\
  (forall fuel plan,
     Process fuel plan (mkState CreateChain w kp t h) =
     Panicked NilMutex (mkState CreateChain w kp t h)) /\
  Clear (mkState CreateChain w kp t h) =
  Returned (mkState CreateChain w kp t h).
Proof. done. Qed.

(** C5 (empty chain), at the chain the constructor gives: it has no stage,
    and [Process] on it panics on the nil mutex instead of returning. *)
Theorem Process_on_created_chain_panics
    (w : World) (kp : list ChainStageNextFunction) (t : list Invocation)
    (h : list Handoff) fuel plan :
  stages (@CreateChain Plan E World) = [] /\
  Process fuel plan (mkState CreateChain w kp t h) =
  Panicked NilMutex (mkState CreateChain w kp t h).
Proof. done. Qed.

(** X1.  Once the mutex exists and is free, [Process] on a chain with no
    stage returns and leaves the state exactly as it was. *)
Theorem Process_on_empty_chain_returns fuel plan s :
  stages (chain s) = [] -> mu (chain s) = Some Unlocked ->
  Process fuel plan s = Returned s.
Proof.
  destruct s as [[st nx m] w kp t h]. cbn. intros -> ->. done.
Qed.

(** C6 (clear resets), at any chain whose mutex is nil, as every chain
    that comes from [CreateChain] is: after [Clear] the chain is the one
    [CreateChain] returns, and [Process] on it panics on the nil mutex. *)
Theorem Clear_then_Process_on_nil_mutex_panics
    (st nx kp : list ChainStageNextFunction) (w : World)
    (t : list Invocation) (h : list Handoff) fuel plan :
  Clear (mkState (mkChain st nx None) w kp t h) =
  Returned (mkState CreateChain w kp t h) /\
  and_then (Clear (mkState (mkChain st nx None) w kp t h))
    (Process fuel plan) =
  Panicked NilMutex (mkState CreateChain w kp t h).
Proof. done. Qed.

(** X2.  Once the mutex exists and is free: after [Clear] the chain is
    the empty chain with that mutex, whatever it held before, the caller's
    state and the log are untouched, [Process] returns at once, and [Add]
    builds the one-stage chain. *)
Theorem Clear_resets_chain_with_free_mutex fn fuel plan s :
  mu (chain s) = Some Unlocked ->
  exists s0,
    Clear s = Returned s0 /\
    chain s0 = mkChain [] [] (Some Unlocked) /\
    world s0 = world s /\ calls s0 = calls s /\
    Process fuel plan s0 = Returned s0 /\
    Add fn s0 = Returned (set_chain (wired [fn] (Some Unlocked)) s0).
Proof.
  intros Hmu. eexists. split; [done|]. rewrite Hmu. split_and!; try done.
Qed.

(** ** What a continuation call reaches *)

(** C4 (error threading).  Take an empty chain and add [fns], every [Add]
    returning, and let [f] and [g] be the stages at positions [i] and
    [i + 1].  In any state whose slots are those [Add] left: the wrapper of
    [f] runs the body of [f] with [next] bound to the wrapper of [g]; where
    that body calls [next(plan, err)], what runs is the body of [g] on
    exactly [plan] and [err], logged as such; so when [f] makes the calls
    [l] of [next], and [g] makes none, [g] is called once per call of [l],
    in order, with exactly the plan and the error of that call.  Also,
    [Process(plan)] calls the stage at position 0 with [plan] and the nil
    error. *)
Theorem next_arguments_reach_next_stage fns s s1 i f g :
  stages (chain s) = [] -> nexts (chain s) = [] ->
  AddAll fns s = Returned s1 ->
  fns !! i = Some f -> fns !! S i = Some g ->
  (forall fuel plan0 err0 s',
     nexts (chain s') = nexts (chain s1) ->
     invoke (S fuel) (stageFn f i) plan0 err0 s' =
     run_body (invoke fuel) i (stageFn g (S i)) (f plan0 err0)
       (record (Invoked i f plan0 err0) s')) /\
  (forall fuel plan err k s',
     nexts (chain s') = nexts (chain s1) ->
     exists next,
       run_body (invoke (S fuel)) i (stageFn g (S i)) (CallNext plan err k)
         s' =
       and_then
         (run_body (invoke fuel) (S i) next (g plan err)
            (record (Invoked (S i) g plan err) (hand_on (ByNext i) s')))
         (run_body (invoke (S fuel)) i (stageFn g (S i)) k)) /\
  (forall fuel plan0 err0 l s',
     nexts (chain s') = nexts (chain s1) ->
     calls_exactly l (f plan0 err0) ->
     (forall plan err, calls_exactly [] (g plan err)) ->
     2 <= fuel ->
     exists s'',
       invoke fuel (stageFn f i) plan0 err0 s' = Returned s'' /\
       calls s'' =
         calls s' ++ Invoked i f plan0 err0 ::
         map (fun a => Invoked (S i) g a.1 a.2) l) /\
  (forall fuel plan,
     exists f0 next0,
       fns !! 0 = Some f0 /\
       Process (S fuel) plan s1 =
       deferred Unlock
         (run_body (invoke fuel) 0 next0 (f0 plan None)
            (record (Invoked 0 f0 plan None) (set_mu Locked s1)))).
Proof.
  intros Hst Hnx Hadd Hf Hg.
  destruct (AddAll_built fns s s1 Hst Hnx Hadd) as [[-> _]|[_ ->]]; [done|].
  cbn [chain set_chain nexts wired].
  split_and!.
  - intros fuel plan0 err0 s' Hs'. apply invoke_stageFn.
    rewrite Hs'. by apply slots_lookup_next.
  - intros fuel plan err k s' Hs'.
    destruct (lookup_lt_is_Some_2 (nexts (chain s')) (S i)) as [next Hnext].
    { rewrite Hs', length_slots. by apply lookup_lt_Some in Hg. }
    exists next. cbn [run_body]. by rewrite (invoke_stageFn _ _ _ _ _ _ next).
  - intros fuel plan0 err0 l s' Hs' Hl Hsilent Hfuel.
    destruct (invoke_before_silent_returns fns (chain s') Hs' i f g l fuel
                plan0 err0 Hf Hg Hl Hsilent Hfuel s' eq_refl)
      as (s'' & Hrun & _ & Hc).
    by exists s''.
  - intros fuel plan.
    assert (exists f0, fns !! 0 = Some f0) as [f0 Hf0].
    { destruct fns; [done|]. cbn. eauto. }
    set (s1 := set_chain (wired fns (Some Unlocked)) s).
    destruct (lookup_lt_is_Some_2 (nexts (chain (set_mu Locked s1))) 0)
      as [next0 Hnext0].
    { cbn. rewrite length_slots. by apply lookup_lt_Some in Hf0. }
    exists f0, next0. split; [done|].
    destruct (Process_wired_start fns (S fuel) plan s1 f0 eq_refl Hf0)
      as [-> _].
    by rewrite (invoke_stageFn _ _ _ _ _ _ next0).
Qed.

(** ** The slot of the stage added last *)

(** C9 (unresolved last slot).  Let an [Add] of [fn] return, on a chain
    that had [i] slots.  Then the wrapper of [fn] is appended with index
    [i] and slot [i] is nil.  It is still nil, or the slices have been
    cleared, after any [Process] run.  The next [Add], of any [g], returns,
    writes the wrapper of [g] into slot [i] and leaves the new slot [i + 1]
    nil.  And while slot [i] is nil, a call of the wrapper of [fn] in which
    [fn] calls its continuation panics on the nil function value. *)
Theorem last_slot_is_nil_until_next_Add fn g s s1 :
  Add fn s = Returned s1 ->
  stages (chain s1) = stages (chain s) ++ [stageFn fn (length (nexts (chain s)))] /\
  nexts (chain s1) !! length (nexts (chain s)) = Some nil_func /\
  (forall fuel plan,
     nexts (chain (final_state (Process fuel plan s1)))
       !! length (nexts (chain s)) = Some nil_func \/
     nexts (chain (final_state (Process fuel plan s1))) = []) /\
  (exists s2,
     Add g s1 = Returned s2 /\
     stages (chain s2) =
       stages (chain s1) ++ [stageFn g (S (length (nexts (chain s))))] /\
     nexts (chain s2) !! length (nexts (chain s)) =
       Some (stageFn g (S (length (nexts (chain s))))) /\
     nexts (chain s2) !! S (length (nexts (chain s))) = Some nil_func) /\
  (forall fuel plan err plan' err' l s',
     nexts (chain s') !! length (nexts (chain s)) = Some nil_func ->
     calls_exactly ((plan', err') :: l) (fn plan err) ->
     exists s'',
       invoke (S fuel) (stageFn fn (length (nexts (chain s)))) plan err s' =
       Panicked NilFuncCall s'').
Proof.
  intros HA.
  destruct (Add_returned_spec fn s s1 HA) as (Hmu1 & Hst1 & Hlen1 & Hnil1 & _).
  set (i := length (nexts (chain s))) in *.
  split_and!.
  - done.
  - done.
  - intros fuel plan.
    destruct (Process_keeps_or_clears fuel plan s1 Hmu1) as [[_ ->]|[_ ->]];
      [by left|by right].
  - pose proof (Add_unlocked g s1 Hmu1) as HA2. eexists. split; [exact HA2|].
    destruct (Add_returned_spec g s1 _ HA2)
      as (_ & Hst2 & Hlen2 & Hnil2 & Hprev).
    rewrite Hlen1 in *. split_and!; [done| |done].
    replace i with (S i - 1) at 1 by lia. apply Hprev. lia.
  - intros fuel plan err plan' err' l s' Hnil Hbody.
    destruct (invoke_panics (chain s') i nil_func fn fuel plan err
                NilFuncCall [] Hnil) with (s := s') as (s'' & Hrun & _).
    + apply (run_body_panics _ _ _ _ _ _ plan' err' l _ Hbody).
      apply invoke_nil_panics.
    + done.
    + by exists s''.
Qed.

(** ** A chain that ends in a stage without a call *)

(** X5.  Take an empty chain and add [mids ++ [last]], every [Add]
    returning, where the stages of [mids] forward and [last] returns
    without calling its continuation.  Then [Process] returns after calling
    every stage once, in order, with the plan it was given and the nil
    error, and leaves the chain as it was; so a second [Process] does the
    same again with its own plan. *)
Theorem Process_runs_terminated_pipeline mids last s s' plan1 plan2 fuel :
  stages (chain s) = [] -> nexts (chain s) = [] ->
  AddAll (mids ++ [last]) s = Returned s' ->
  Forall forwards mids ->
  (forall plan err, calls_exactly [] (last plan err)) ->
  length (mids ++ [last]) <= fuel ->
  exists s1 s2,
    Process fuel plan1 s' = Returned s1 /\
    chain s1 = chain s' /\
    calls s1 = calls s' ++ invocations 0 (mids ++ [last]) plan1 None /\
    Process fuel plan2 s1 = Returned s2 /\
    chain s2 = chain s' /\
    calls s2 = calls s1 ++ invocations 0 (mids ++ [last]) plan2 None.
Proof.
  intros Hst Hnx Hadd Hmids Hlast Hfuel.
  rewrite length_app in Hfuel. cbn in Hfuel.
  set (fns := mids ++ [last]) in *.
  destruct (AddAll_built fns s s' Hst Hnx Hadd) as [[Hnil _]|[_ ->]].
  { by destruct mids. }
  assert (exists f0, fns !! 0 = Some f0) as [f0 Hf0].
  { subst fns. destruct mids; cbn; eauto. }
  assert (Hrun : forall plan,
    returns_with (wired fns (Some Locked)) (invocations 0 fns plan None)
      (invoke fuel (stageFn f0 0) plan None)).
  { intros plan.
    apply (invoke_pipeline_returns fns (wired fns (Some Locked)) eq_refl
             [] mids last f0); try done. lia. }
  destruct (Process_wired_returns fns fuel plan1
              (set_chain (wired fns (Some Unlocked)) s) f0 _ eq_refl Hf0
              (Hrun plan1)) as (s1 & Hp1 & Hch1 & Hc1).
  destruct (Process_wired_returns fns fuel plan2 s1 f0 _ Hch1 Hf0
              (Hrun plan2)) as (s2 & Hp2 & Hch2 & Hc2).
  exists s1, s2. split_and!; try done. by rewrite Hch2.
Qed.

(** ** The chain [Add] builds, as a whole *)

(** X6.  Take an empty chain and add [fns], every [Add] returning.  Then
    neither the caller's state nor the log has changed, both slices have one
    entry per stage, entry [i] of [stages] is the wrapper of the stage added
    at position [i], capturing [i], and slot [i] of [nexts] is the wrapper
    of the stage at position [i + 1] when there is one and nil for the stage
    added last; after at least one [Add] the mutex is free. *)
Theorem Add_links_each_stage_to_the_next fns s s' :
  stages (chain s) = [] -> nexts (chain s) = [] ->
  AddAll fns s = Returned s' ->
  world s' = world s /\ calls s' = calls s /\
  length (stages (chain s')) = length fns /\
  length (nexts (chain s')) = length fns /\
  (fns <> [] -> mu (chain s') = Some Unlocked) /\
  (forall i fn,
     fns !! i = Some fn ->
     stages (chain s') !! i = Some (stageFn fn i) /\
     nexts (chain s') !! i =
       Some (match fns !! S i with
             | Some g => stageFn g (S i)
             | None => nil_func
             end)).
Proof.
  intros Hst Hnx Hadd.
  destruct (AddAll_built fns s s' Hst Hnx Hadd) as [[-> ->]|[Hne ->]].
  - rewrite Hst, Hnx. split_and!; done.
  - cbn. rewrite length_wrappers, length_slots. split_and!; try done.
    intros i fn Hfn. rewrite wrappers_lookup, slots_lookup, Hfn. done.
Qed.

(** ** Stages that call back into their chain *)

Lemma run_body_calls_back callf self next b s :
  mu (chain s) = Some Locked ->
  calls_back_first b ->
  exists s1,
    run_body callf self next b s = Blocked s1 /\
    chain s1 = chain s /\ calls s1 = calls s.
Proof.
  intros Hmu Hb. revert s Hmu.
  induction Hb as [f k _ IH|k _ IH|k _ IH|fn k|plan k]; intros s Hmu;
    cbn [run_body].
  - destruct (IH (set_world f s) Hmu) as (s1 & ? & ? & ?). by exists s1.
  - by apply IH.
  - by apply IH.
  - rewrite Add_blocked by done. by exists s.
  - rewrite Process_with_blocked by done. by exists s.
Qed.

(** X7.  While [Process] holds the mutex, a stage function that calls
    [Add] or [Process] on its own chain never gets the mutex: the call of
    its wrapper does not return, the chain is as it was with the mutex
    still held, and nothing but the call of that stage has been logged.
    So when the first stage of a chain built by [Add] does so, [Process]
    itself does not return. *)
Theorem stage_calling_Add_or_Process_blocks fns s s' f0 plan :
  stages (chain s) = [] -> nexts (chain s) = [] ->
  AddAll fns s = Returned s' ->
  fns !! 0 = Some f0 ->
  calls_back_first (f0 plan None) ->
  (forall fuel i fn next plan' err s0,
     mu (chain s0) = Some Locked ->
     nexts (chain s0) !! i = Some next ->
     calls_back_first (fn plan' err) ->
     exists s1,
       invoke (S fuel) (stageFn fn i) plan' err s0 = Blocked s1 /\
       chain s1 = chain s0 /\
       calls s1 = calls s0 ++ [Invoked i fn plan' err]) /\
  (forall fuel,
     exists s1,
       Process (S fuel) plan s' = Blocked s1 /\
       mu (chain s1) = Some Locked /\
       stages (chain s1) = stages (chain s') /\
       nexts (chain s1) = nexts (chain s') /\
       calls s1 = calls s' ++ [Invoked 0 f0 plan None]).
Proof.
  intros Hst Hnx Hadd Hf0 Hcb.
  assert (Hinvoke : forall fuel i fn next plan' err s0,
     mu (chain s0) = Some Locked ->
     nexts (chain s0) !! i = Some next ->
     calls_back_first (fn plan' err) ->
     exists s1,
       invoke (S fuel) (stageFn fn i) plan' err s0 = Blocked s1 /\
       chain s1 = chain s0 /\
       calls s1 = calls s0 ++ [Invoked i fn plan' err]).
  { intros fuel i fn next plan' err s0 Hmu Hnext Hb.
    rewrite (invoke_stageFn _ _ _ _ _ _ next) by done.
    destruct (run_body_calls_back (invoke fuel) i next (fn plan' err)
                (record (Invoked i fn plan' err) s0) Hmu Hb)
      as (s1 & ? & ? & ?).
    by exists s1. }
  split; [exact Hinvoke|].
  intros fuel.
  destruct (AddAll_built fns s s' Hst Hnx Hadd) as [[-> _]|[_ ->]]; [done|].
  set (s1 := set_chain (wired fns (Some Unlocked)) s).
  destruct (Process_wired_start fns (S fuel) plan s1 f0 eq_refl Hf0)
    as [-> Hl].
  destruct (lookup_lt_is_Some_2 (nexts (chain (set_mu Locked s1))) 0)
    as [next0 Hnext0].
  { cbn. rewrite length_slots. by apply lookup_lt_Some in Hf0. }
  destruct (Hinvoke fuel 0 f0 next0 plan None (set_mu Locked s1) eq_refl
              Hnext0 Hcb) as (s2 & -> & Hch & Hc).
  exists s2. cbn [deferred]. rewrite Hch. by split_and!.
Qed.

Lemma run_body_calls_next_first callf self next b s :
  calls_next_first b ->
  (forall plan err s0,
     chain s0 = chain s -> calls s0 = calls s ->
     exists f s1, callf next plan err s0 = Panicked f s1 /\
                  chain s1 = chain s /\ calls s1 = calls s /\
                  f = match next with
                      | nil_func => NilFuncCall
                      | stageFn _ _ => IndexOutOfRange
                      end) ->
  exists s1,
    run_body callf self next b s =
    Panicked match next with
             | nil_func => NilFuncCall
             | stageFn _ _ => IndexOutOfRange
             end s1 /\
    chain s1 = chain s /\ calls s1 = calls s.
Proof.
  intros Hb. revert s.
  induction Hb as [f k _ IH|k _ IH|k _ IH|plan err k]; intros s Hcall;
    cbn [run_body].
  - destruct (IH (set_world f s) Hcall) as (s1 & ? & ? & ?). by exists s1.
  - by apply IH.
  - by apply IH.
  - destruct (Hcall plan err (hand_on (ByNext self) s) eq_refl eq_refl)
      as (f & s1 & -> & ? & ? & ->).
    by exists s1.
Qed.

(** X8.  [Clear] takes no lock, so a stage function may call it while
    [Process] runs; but a stage of a chain built by [Add] that calls [Clear]
    and then its continuation makes the run panic: the continuation it
    holds is the wrapper of the next stage, which indexes [nexts], now
    empty (index out of range), or nil when it is the only stage.  After
    the panic both slices are empty, the mutex is free, and only the call of
    that first stage has been logged. *)
Theorem Clear_inside_stage_breaks_its_continuation f0 rest s s' plan fuel :
  stages (chain s) = [] -> nexts (chain s) = [] ->
  AddAll (f0 :: rest) s = Returned s' ->
  clears_then_calls_next (f0 plan None) ->
  2 <= fuel ->
  exists s1,
    Process fuel plan s' =
    Panicked match rest with
             | [] => NilFuncCall
             | _ :: _ => IndexOutOfRange
             end s1 /\
    stages (chain s1) = [] /\ nexts (chain s1) = [] /\
    mu (chain s1) = Some Unlocked /\
    calls s1 = calls s' ++ [Invoked 0 f0 plan None].
Proof.
  intros Hst Hnx Hadd Hb Hfuel.
  destruct (AddAll_built (f0 :: rest) s s' Hst Hnx Hadd) as [[? _]|[_ ->]];
    [done|].
  set (s1 := set_chain (wired (f0 :: rest) (Some Unlocked)) s).
  destruct (Process_wired_start (f0 :: rest) fuel plan s1 f0 eq_refl eq_refl)
    as [-> _].
  destruct fuel as [|[|fuel]]; [lia..|].
  set (next := match rest with
               | [] => nil_func
               | g :: _ => stageFn g 1
               end : ChainStageNextFunction).
  rewrite (invoke_stageFn _ _ _ _ _ _ next)
    by (cbn; subst next; by destruct rest).
  assert (Hgoal : forall b s0,
    mu (chain s0) = Some Locked ->
    clears_then_calls_next b ->
    exists s2,
      run_body (invoke (S fuel)) 0 next b s0 =
      Panicked match rest with
               | [] => NilFuncCall
               | _ :: _ => IndexOutOfRange
               end s2 /\
      chain s2 = mkChain [] [] (Some Locked) /\ calls s2 = calls s0).
  { intros b s0 Hmu Hcc. revert s0 Hmu.
    induction Hcc as [f k _ IH|k _ IH|k _ IH|k Hk]; intros s0 Hmu;
      cbn [run_body].
    - destruct (IH (set_world f s0) Hmu) as (s2 & ? & ? & ?). by exists s2.
    - by apply IH.
    - by apply IH.
    - unfold Clear. cbn [and_then]. rewrite Hmu.
      destruct (run_body_calls_next_first (invoke (S fuel)) 0 next k
                  (set_chain (mkChain [] [] (Some Locked)) s0) Hk)
        as (s2 & Hrun & Hch & Hc).
      + intros plan' err s3 Hch3 Hc3. subst next.
        destruct rest as [|g rest'].
        * exists NilFuncCall, s3. by rewrite invoke_nil.
        * exists IndexOutOfRange, s3. cbn [invoke]. rewrite Hch3. by cbn.
      + exists s2. rewrite Hrun. split_and!; try done.
        subst next. by destruct rest. }
  destruct (Hgoal (f0 plan None)
              (record (Invoked 0 f0 plan None) (set_mu Locked s1)) eq_refl Hb)
    as (s2 & -> & Hch & Hc).
  exists (set_mu Unlocked s2). unfold deferred, Unlock. rewrite Hch. cbn.
  rewrite Hch. by split_and!.
Qed.

(** ** Stages that test their continuation *)

Lemma run_body_returns_when callf self next ch
    (tr : Plan * error -> list Invocation) l b :
  calls_when match next with nil_func => true | stageFn _ _ => false end l b ->
  Forall (fun a => returns_with ch (tr a) (callf next a.1 a.2)) l ->
  returns_with ch (concat (map tr l)) (run_body callf self next b).
Proof.
  induction 1 as [|l f k _ IH|l k _ IH|l k _ IH|l plan err k _ IH];
    intros Hall; unfold returns_with in *; intros s Hs; cbn [run_body].
  - exists s. by rewrite app_nil_r.
  - destruct (IH Hall (set_world f s) Hs) as (s' & ? & ? & ?). by exists s'.
  - by apply IH.
  - by apply IH.
  - apply Forall_cons in Hall as [Ha Hl]. cbn in Ha.
    destruct (Ha (hand_on (ByNext self) s) Hs) as (s1 & -> & Hch1 & Hc1).
    cbn.
    destruct (IH Hl s1 Hch1) as (s2 & -> & Hch2 & Hc2).
    exists s2. split_and!; [done..|].
    by rewrite Hc2, Hc1, <- app_assoc.
Qed.

Lemma invoke_guarded_returns fns ch :
  nexts ch = slots fns ->
  Forall forwards_if_bound fns ->
  forall suf pre fn fuel plan err,
    fns = pre ++ suf -> suf !! 0 = Some fn -> length suf <= fuel ->
    returns_with ch (invocations (length pre) suf plan err)
      (invoke fuel (stageFn fn (length pre)) plan err).
Proof.
  intros Hslots Hfw. induction suf as [|fn' suf IH];
    intros pre fn fuel plan err Hfns Hhd Hfuel; [done|].
  injection Hhd as ->.
  destruct fuel as [|fuel]; [cbn in Hfuel; lia|].
  assert (Hfn : forwards_if_bound fn).
  { apply (Forall_lookup_1 _ _ (length pre) _ Hfw).
    subst fns. by apply list_lookup_middle. }
  rewrite invocations_cons.
  destruct suf as [|g suf].
  - apply (invoke_returns _ _ nil_func).
    + rewrite Hslots. apply slots_lookup_last. subst fns.
      rewrite length_app. cbn. lia.
    + apply (run_body_returns_when _ _ nil_func _ (fun _ => []) []);
        [apply Hfn|done].
  - apply (invoke_returns _ _ (stageFn g (S (length pre)))).
    + rewrite Hslots. apply slots_lookup_next. subst fns.
      rewrite lookup_app_r by lia.
      by replace (S (length pre) - length pre) with 1 by lia.
    + replace (invocations (S (length pre)) (g :: suf) plan err)
        with (concat (map (fun a : Plan * error =>
                             invocations (S (length pre)) (g :: suf) a.1 a.2)
                        [(plan, err)]))
        by (cbn; by rewrite app_nil_r).
      apply run_body_returns_when; [apply Hfn|].
      apply Forall_singleton. cbn [fst snd].
      replace (S (length pre)) with (length (pre ++ [fn]))
        by (rewrite length_app; cbn; lia).
      apply IH; [by rewrite <- app_assoc|done|cbn in *; lia].
Qed.

(** X10.  Take an empty chain and add [fns], every [Add] returning, where
    every stage tests its continuation, hands on what it received when the
    continuation is bound and calls nothing when it is nil.  Then [Process]
    returns after calling every stage once, in order, each with the plan
    it was given and the nil error, and leaves the chain as it was: the
    nil continuation of the last stage is never called. *)
Theorem Process_runs_stages_that_test_next fns s s' plan fuel :
  stages (chain s) = [] -> nexts (chain s) = [] ->
  AddAll fns s = Returned s' ->
  fns <> [] ->
  Forall forwards_if_bound fns ->
  length fns <= fuel ->
  exists s1,
    Process fuel plan s' = Returned s1 /\
    chain s1 = chain s' /\
    calls s1 = calls s' ++ invocations 0 fns plan None.
Proof.
  intros Hst Hnx Hadd Hne Hfw Hfuel.
  destruct (AddAll_built fns s s' Hst Hnx Hadd) as [[? _]|[_ ->]]; [done|].
  destruct fns as [|f0 fns]; [done|].
  apply (Process_wired_returns (f0 :: fns) fuel plan _ f0); [done|done|].
  by apply (invoke_guarded_returns (f0 :: fns)
              (wired (f0 :: fns) (Some Locked)) eq_refl Hfw (f0 :: fns) []).
Qed.

(** X9.  [Process] adds no stage and removes none: started with the mutex
    free, however the run ends, both slices are as they were before it, or
    both are empty (a stage function has called [Clear]). *)
Theorem Process_leaves_slices_or_finds_them_cleared fuel plan s :
  mu (chain s) = Some Unlocked ->
  (stages (chain (final_state (Process fuel plan s))) = stages (chain s) /\
   nexts (chain (final_state (Process fuel plan s))) = nexts (chain s)) \/
  (stages (chain (final_state (Process fuel plan s))) = [] /\
   nexts (chain (final_state (Process fuel plan s))) = []).
Proof. apply Process_keeps_or_clears. Qed.

End ChainProofs.

(** * The relationship handlers: properties *)

Section RelationshipProofs.

Context {RelationshipDefinition Bytes LibError Entity Registry Host
         RequestBody : Type}.
Variable ReadFile : string -> Bytes + LibError.
Variable Unmarshal : Bytes -> RelationshipDefinition + LibError.
Variable RegisterEntity :
  Host -> RelationshipDefinition -> Registry -> Registry * option LibError.
Variable HostNamed : string -> Host.
Variable Clean : string -> string.
Variable entries : string -> list (@Visit LibError).
Variable Decode :
  RequestBody -> @MeshModelRegistrantData Bytes Host + LibError.
Variable RelationshipDefinitionType : string.
Variable Atoi : string -> Z.
Variable DefaultPageSizeForMeshModelComponents : Z.
Variable GetEntities : RelationshipFilter -> list Entity.
Variable asRelationshipDefinition : Entity -> option RelationshipDefinition.

Local Abbreviation Visit := (@Visit LibError).
Local Abbreviation walkFn := (walkFn ReadFile Unmarshal).
Local Abbreviation decoded := (decoded ReadFile Unmarshal).
Local Abbreviation failure := (failure ReadFile Unmarshal).
Local Abbreviation parseStaticRelationships :=
  (parseStaticRelationships ReadFile Unmarshal entries).
Local Abbreviation register_each := (register_each RegisterEntity).
Local Abbreviation accepts_each := (accepts_each RegisterEntity).
Local Abbreviation RegisterStaticMeshmodelRelationships :=
  (RegisterStaticMeshmodelRelationships
     ReadFile Unmarshal RegisterEntity HostNamed Clean entries).
Local Abbreviation RegisterMeshmodelRelationships :=
  (RegisterMeshmodelRelationships
     Unmarshal RegisterEntity Decode RelationshipDefinitionType).
Local Abbreviation filterByName :=
  (filterByName Atoi DefaultPageSizeForMeshModelComponents).
Local Abbreviation filterAll :=
  (filterAll Atoi DefaultPageSizeForMeshModelComponents).
Local Abbreviation GetMeshmodelRelationshipByName :=
  (GetMeshmodelRelationshipByName
     Atoi DefaultPageSizeForMeshModelComponents
     GetEntities asRelationshipDefinition).
Local Abbreviation GetAllMeshmodelRelationships :=
  (GetAllMeshmodelRelationships
     Atoi DefaultPageSizeForMeshModelComponents
     GetEntities asRelationshipDefinition).

Implicit Types (v : Visit) (rs : list RelationshipDefinition).
Implicit Types (rm : Registry) (vars query : string -> string).

(** ** Parsing the static relationships *)

Lemma walkFn_passes v rs :
  failure v = None ->
  walkFn v rs =
  (rs ++ match decoded v with Some rel => [rel] | None => [] end, None).
Proof.
  unfold walkFn, handlers.failure, handlers.decoded.
  destruct (visit_info v) as [[]|]; cbn; [by rewrite app_nil_r| |done].
  destruct (ReadFile (visit_path v)) as [byt|]; [|done].
  by destruct (Unmarshal byt).
Qed.

Lemma walkFn_fails v rs err :
  failure v = Some err -> walkFn v rs = (rs, Some err).
Proof.
  unfold walkFn, handlers.failure.
  destruct (visit_info v) as [[]|]; cbn; [done| |congruence].
  destruct (ReadFile _) as [byt|]; [|congruence].
  destruct (Unmarshal byt); [done|congruence].
Qed.

Lemma Walk_passes good rest rs :
  Forall (fun v => failure v = None) good ->
  Walk walkFn (good ++ rest) rs = Walk walkFn rest (rs ++ omap decoded good).
Proof.
  intros Hgood. revert rs.
  induction Hgood as [|v good Hv _ IH]; intros rs; cbn [app Walk].
  - by rewrite app_nil_r.
  - assert (omap decoded (v :: good) =
            match decoded v with
            | Some rel => rel :: omap decoded good
            | None => omap decoded good
            end) as -> by done.
    rewrite (walkFn_passes v rs Hv), IH.
    destruct (decoded v); by rewrite <- app_assoc.
Qed.

Lemma Walk_until_failure good tail :
  Forall (fun v => failure v = None) good ->
  match tail with [] => True | bad :: _ => failure bad <> None end ->
  Walk walkFn (good ++ tail) [] =
  (omap decoded good,
   match tail with [] => None | bad :: _ => failure bad end).
Proof.
  intros Hgood Htail. rewrite (Walk_passes good tail [] Hgood). cbn [app].
  destruct tail as [|bad tail']; [done|]. cbn [Walk].
  destruct (failure bad) as [err|] eqn:Hbad; [|done].
  by rewrite (walkFn_fails bad _ err Hbad).
Qed.

(** X11.  [parseStaticRelationships] returns the relationships it has
    parsed before the first entry that fails, together with that entry's
    error.  Let the walk present the entries [good ++ tail], where no entry
    of [good] fails (each is a directory, or a file that is read and
    decoded) and [tail] is empty or starts with an entry that fails (no
    file information, a read error, a decoding error).  Then the result
    holds the decoded files of [good], in the order of the walk, and the
    error is that of the first entry of [tail], or nil. *)
Theorem parseStaticRelationships_returns_what_it_parsed root good tail :
  entries root = good ++ tail ->
  Forall (fun v => failure v = None) good ->
  match tail with [] => True | bad :: _ => failure bad <> None end ->
  parseStaticRelationships root =
  (omap decoded good,
   match tail with [] => None | bad :: _ => failure bad end).
Proof.
  intros Hentries Hgood Htail. unfold handlers.parseStaticRelationships.
  rewrite Hentries. by apply Walk_until_failure.
Qed.

(** ** Registering the static relationships *)

Lemma register_each_all_succeed host rs rm err :
  rs <> [] ->
  accepts_each host rs rm = true ->
  register_each host rs rm err =
  (foldl (fun rm' r => (RegisterEntity host r rm').1) rm rs, None).
Proof.
  revert rm err. induction rs as [|r rs IH]; intros rm err Hne Hok; [done|].
  cbn [handlers.register_each handlers.accepts_each foldl] in *.
  destruct (RegisterEntity host r rm) as [rm' [e|]]; [done|]. cbn.
  destruct rs as [|r' rs]; [done|]. by apply IH.
Qed.

(** X12.  A parse error is lost when what was parsed registers.  When
    [parseStaticRelationships] returns at least one relationship, with or
    without an error, and each call of [RegisterEntity] in the loop returns
    nil, on the registry as the calls before it left it, then
    [RegisterStaticMeshmodelRelationships] registers them all, in order,
    and returns nil: the loop has overwritten the error of the parse. *)
Theorem RegisterStatic_returns_nil_when_all_register rm sourceDirPath rs err :
  parseStaticRelationships (Clean sourceDirPath) = (rs, err) ->
  rs <> [] ->
  accepts_each (HostNamed "meshery") rs rm = true ->
  RegisterStaticMeshmodelRelationships rm sourceDirPath =
  (foldl (fun rm' r => (RegisterEntity (HostNamed "meshery") r rm').1) rm rs,
   None).
Proof.
  intros Hparse Hne Hok. unfold handlers.RegisterStaticMeshmodelRelationships.
  rewrite Hparse. destruct rs as [|r rs]; [done|].
  replace (length (r :: rs) =? 0) with false by done.
  rewrite andb_false_r. by apply register_each_all_succeed.
Qed.

Lemma register_each_first_failure host pre r post rm err e :
  accepts_each host pre rm = true ->
  (RegisterEntity host r
     (foldl (fun rm' r' => (RegisterEntity host r' rm').1) rm pre)).2 =
    Some e ->
  register_each host (pre ++ r :: post) rm err =
  ((RegisterEntity host r
      (foldl (fun rm' r' => (RegisterEntity host r' rm').1) rm pre)).1,
   Some (LibraryError e)).
Proof.
  revert rm err. induction pre as [|r' pre IH]; intros rm err Hpre Hr;
    cbn [app handlers.register_each handlers.accepts_each foldl] in *.
  - destruct (RegisterEntity host r rm) as [rm' e']. cbn in *. by subst e'.
  - destruct (RegisterEntity host r' rm) as [rm' [e'|]]; [done|]. cbn in *.
    by apply IH.
Qed.

(** X13.  Registration stops at the first relationship the registry
    refuses.  When the parse returns [pre ++ r :: post], the calls of
    [RegisterEntity] for [pre] return nil, each on the registry as the calls
    before it left it, and the call for [r] that follows returns [e], then
    [RegisterStaticMeshmodelRelationships] returns [e], whatever the parse
    error was, with the registry as the calls for [pre] and for [r] left
    it: no relationship of [post] is offered to the registry. *)
Theorem RegisterStatic_stops_at_first_refusal
    rm sourceDirPath pre r post err e :
  parseStaticRelationships (Clean sourceDirPath) = (pre ++ r :: post, err) ->
  accepts_each (HostNamed "meshery") pre rm = true ->
  (RegisterEntity (HostNamed "meshery") r
     (foldl (fun rm' r' => (RegisterEntity (HostNamed "meshery") r' rm').1)
        rm pre)).2 = Some e ->
  RegisterStaticMeshmodelRelationships rm sourceDirPath =
  ((RegisterEntity (HostNamed "meshery") r
      (foldl (fun rm' r' => (RegisterEntity (HostNamed "meshery") r' rm').1)
         rm pre)).1,
   Some (LibraryError e)).
Proof.
  intros Hparse Hpre Hr. unfold handlers.RegisterStaticMeshmodelRelationships.
  rewrite Hparse.
  replace (length (pre ++ r :: post) =? 0) with false
    by (symmetry; apply Nat.eqb_neq; rewrite length_app; cbn; lia).
  rewrite andb_false_r. by apply register_each_first_failure.
Qed.

(** X14.  When nothing could be parsed, nothing is registered.  If the
    walk of the cleaned source path presents directories only, the
    function returns nil; if the first entry that is not a directory
    fails (also when the root itself has no file information), it returns
    that error.  Either way the registry is as it was. *)
Theorem RegisterStatic_registers_nothing_without_a_file
    rm sourceDirPath dirs tail :
  entries (Clean sourceDirPath) = dirs ++ tail ->
  Forall (fun v => visit_info v = Some true) dirs ->
  match tail with [] => True | bad :: _ => failure bad <> None end ->
  RegisterStaticMeshmodelRelationships rm sourceDirPath =
  (rm, match tail with [] => None | bad :: _ => failure bad end).
Proof.
  intros Hentries Hdirs Htail.
  assert (Hgood : Forall (fun v => failure v = None) dirs).
  { eapply Forall_impl; [exact Hdirs|]. intros v Hv.
    unfold handlers.failure. by rewrite Hv. }
  assert (Hnone : omap decoded dirs = []).
  { clear -Hdirs. induction Hdirs as [|v dirs Hv _ IH]; [done|].
    cbn. unfold handlers.decoded at 1. by rewrite Hv. }
  unfold handlers.RegisterStaticMeshmodelRelationships,
    handlers.parseStaticRelationships.
  rewrite Hentries, (Walk_until_failure dirs tail Hgood Htail), Hnone.
  by destruct tail as [|bad tail']; [|destruct (failure bad)].
Qed.

(** ** Registration over HTTP *)

(** X15.  [RegisterMeshmodelRelationships] starts [Publish] exactly when
    it has written no error, and every error it writes has the status
    [http.StatusBadRequest], also the one of a registry that refused the
    relationship. *)
Theorem RegisterMeshmodelRelationships_publishes_unless_it_fails body rm :
  (reg_published (RegisterMeshmodelRelationships body rm) = true <->
   reg_error (RegisterMeshmodelRelationships body rm) = None) /\
  (forall status e,
     reg_error (RegisterMeshmodelRelationships body rm) = Some (status, e) ->
     status = StatusBadRequest).
Proof.
  unfold handlers.RegisterMeshmodelRelationships.
  destruct (Decode body) as [cc|err]; cbn; [|split; [done|congruence]].
  destruct (String.eqb _ _); cbn; [|split; [done|congruence]].
  destruct (Unmarshal _) as [r|err]; cbn; [|split; [done|congruence]].
  destruct (RegisterEntity _ r rm) as [rm' [err|]]; cbn;
    split; (done || congruence).
Qed.

(** X16.  The handler changes the registry in one way only.  If the
    registry after the request differs from the one before, then the body
    decoded, its entity type was [types.RelationshipDefinition], its entity
    decoded to a relationship, and the registry is as
    [RegisterEntity(cc.Host, r)] left it, whether it accepted the
    relationship or not. *)
Theorem RegisterMeshmodelRelationships_changes_registry_by_registering
    body rm :
  reg_registry (RegisterMeshmodelRelationships body rm) <> rm ->
  exists cc rel,
    Decode body = inl cc /\
    cc_EntityType cc = RelationshipDefinitionType /\
    Unmarshal (cc_Entity cc) = inl rel /\
    reg_registry (RegisterMeshmodelRelationships body rm) =
    (RegisterEntity (cc_Host cc) rel rm).1.
Proof.
  unfold handlers.RegisterMeshmodelRelationships.
  destruct (Decode body) as [cc|err]; cbn; [|done].
  destruct (String.eqb _ _) eqn:Htype; cbn; [|done].
  destruct (Unmarshal _) as [r|err] eqn:Hentity; cbn; [|done].
  intros _. exists cc, r. split_and!; [done|by apply String.eqb_eq|done|].
  by destruct (RegisterEntity _ r rm) as [rm' [err|]].
Qed.

(** X17.  The [switch] has one case and no default: a body that decodes
    and names any other entity type is answered without an error, nothing
    is registered, whatever its entity holds, and [Publish] is started. *)
Theorem RegisterMeshmodelRelationships_accepts_other_entity_types
    body rm cc :
  Decode body = inl cc ->
  cc_EntityType cc <> RelationshipDefinitionType ->
  RegisterMeshmodelRelationships body rm = mkRegistration None rm true.
Proof.
  intros Hbody Htype. unfold handlers.RegisterMeshmodelRelationships.
  rewrite Hbody. by apply String.eqb_neq in Htype as ->.
Qed.

(** ** Queries *)

Lemma int_wrap_small z : (- 2 ^ 63 <= z < 2 ^ 63)%Z -> int_wrap z = z.
Proof. intros Hz. unfold int_wrap. rewrite Z.mod_small; lia. Qed.

Lemma int_wrap_mod z : (int_wrap z mod 2 ^ 64 = z mod 2 ^ 64)%Z.
Proof.
  unfold int_wrap. rewrite Zminus_mod_idemp_l. f_equal. lia.
Qed.

Lemma int_wrap_congr x y :
  (x mod 2 ^ 64 = y mod 2 ^ 64)%Z -> int_wrap x = int_wrap y.
Proof.
  intros Hxy. unfold int_wrap.
  by rewrite (Z.add_mod x), Hxy, <- Z.add_mod.
Qed.

Lemma relationshipsOf_omap (res : list Entity) rels :
  relationshipsOf asRelationshipDefinition res rels =
  rels ++ omap asRelationshipDefinition res.
Proof.
  revert rels. induction res as [|r res IH]; intros rels; cbn.
  - by rewrite app_nil_r.
  - destruct (asRelationshipDefinition r); rewrite IH; [|done].
    by rewrite <- app_assoc.
Qed.

(** X18.  Both handlers answer with the entities of the registry that are
    relationship definitions, in the order the registry gave them; an
    entity of another type is dropped, not reported. *)
Theorem handlers_return_the_relationships_among_the_entities vars query :
  GetMeshmodelRelationshipByName vars query =
    omap asRelationshipDefinition (GetEntities (filterByName vars query)) /\
  GetAllMeshmodelRelationships vars query =
    omap asRelationshipDefinition (GetEntities (filterAll vars query)).
Proof.
  unfold handlers.GetMeshmodelRelationshipByName,
    handlers.GetAllMeshmodelRelationships.
  by rewrite !relationshipsOf_omap.
Qed.

(** X19.  [GetMeshmodelRelationshipByName] reads the route variables
    [model] and [name] and the query parameters [search], [pagesize],
    [page], [order] and [sort], and nothing else of the request: two
    requests that agree on these get the same answer.  So [?version],
    which the comment of the handler lists, has no effect. *)
Theorem GetMeshmodelRelationshipByName_reads_no_version
    vars vars' query query' :
  vars "model" = vars' "model" ->
  vars "name" = vars' "name" ->
  Forall (fun key => query key = query' key)
    ["search"; "pagesize"; "page"; "order"; "sort"] ->
  GetMeshmodelRelationshipByName vars query =
  GetMeshmodelRelationshipByName vars' query'.
Proof.
  intros Hmodel Hname Hquery.
  unfold handlers.GetMeshmodelRelationshipByName, handlers.filterByName.
  repeat (apply Forall_cons in Hquery as [? Hquery]).
  by repeat match goal with H : _ = _ |- _ => rewrite H; clear H end.
Qed.

(** X20.  [GetAllMeshmodelRelationships] reads the route variable [model]
    and the query parameters [version], [pagesize], [page], [order] and
    [sort], and nothing else of the request: two requests that agree on
    these get the same answer, so [?search] has no effect here. *)
Theorem GetAllMeshmodelRelationships_reads_no_search
    vars vars' query query' :
  vars "model" = vars' "model" ->
  Forall (fun key => query key = query' key)
    ["version"; "pagesize"; "page"; "order"; "sort"] ->
  GetAllMeshmodelRelationships vars query =
  GetAllMeshmodelRelationships vars' query'.
Proof.
  intros Hmodel Hquery.
  unfold handlers.GetAllMeshmodelRelationships, handlers.filterAll.
  repeat (apply Forall_cons in Hquery as [? Hquery]).
  by repeat match goal with H : _ = _ |- _ => rewrite H; clear H end.
Qed.

(** X21.  With [?pagesize=all] both handlers ask the registry for limit 0
    and offset 0, whatever [?page] says: the page number is multiplied by
    the limit, which stays 0. *)
Theorem pagesize_all_ignores_the_page vars query :
  query "pagesize" = "all" ->
  Limit (filterByName vars query) = 0%Z /\
  Offset (filterByName vars query) = 0%Z /\
  Limit (filterAll vars query) = 0%Z /\
  Offset (filterAll vars query) = 0%Z.
Proof.
  intros Hall. unfold handlers.filterByName, handlers.filterAll. cbn.
  rewrite Hall. cbn. by rewrite Z.mul_0_r.
Qed.


(** X23.  Consecutive pages are adjacent.  For two requests with the same
    page size and the page numbers [p] and [p + 1], [p] at least 1, both
    handlers ask for the same limit, and the offset of the second request
    is the offset of the first plus the limit, in the arithmetic of [int]. *)
Theorem consecutive_pages_are_adjacent vars query query' p :
  query "pagesize" = query' "pagesize" ->
  Atoi (query "page") = p -> Atoi (query' "page") = (p + 1)%Z ->
  (1 <= p < 2 ^ 63 - 1)%Z ->
  (Limit (filterByName vars query') = Limit (filterByName vars query) /\
   Offset (filterByName vars query') =
   int_wrap (Offset (filterByName vars query) +
             Limit (filterByName vars query))) /\
  (Limit (filterAll vars query') = Limit (filterAll vars query) /\
   Offset (filterAll vars query') =
   int_wrap (Offset (filterAll vars query) + Limit (filterAll vars query))).
Proof.
  intros Hsize Hp Hp' Hrange.
  assert (Hadjacent : forall limit,
    int_wrap (int_wrap (p + 1 - 1) * limit) =
    int_wrap (int_wrap (int_wrap (p - 1) * limit) + limit)).
  { intros limit. rewrite (int_wrap_small (p + 1 - 1)) by lia.
    rewrite (int_wrap_small (p - 1)) by lia. apply int_wrap_congr.
    rewrite Z.add_mod, int_wrap_mod, <- Z.add_mod by done. f_equal. lia. }
  unfold handlers.filterByName, handlers.filterAll. cbn.
  rewrite <- Hsize, Hp, Hp'.
  replace (p =? 0)%Z with false by lia.
  replace (p + 1 =? 0)%Z with false by lia.
  by rewrite <- !Hadjacent.
Qed.

(** X24.  A negative page number is not refused: with a positive limit the
    handlers ask the registry for a negative offset, [(page - 1) * limit]
    where that is an [int]. *)
Theorem negative_page_gives_negative_offset vars query p :
  Atoi (query "page") = p -> (- 2 ^ 63 < p < 0)%Z ->
  (0 < Limit (filterByName vars query))%Z ->
  (- 2 ^ 63 <= (p - 1) * Limit (filterByName vars query))%Z ->
  Offset (filterByName vars query) =
    ((p - 1) * Limit (filterByName vars query))%Z /\
  (Offset (filterByName vars query) < 0)%Z /\
  Offset (filterAll vars query) = Offset (filterByName vars query).
Proof.
  unfold handlers.filterByName, handlers.filterAll. cbn.
  intros -> Hp Hlimit Hrange.
  replace (p =? 0)%Z with false by lia.
  rewrite (int_wrap_small (p - 1)) by lia.
  rewrite int_wrap_small by nia.
  split_and!; [done|nia|done].
Qed.

End RelationshipProofs.

(** ** Examples *)

(** The scenario of the specification: [A] sets the count to 1 and goes
    on, [B] and [C] add one each, [C] calls nothing: the count ends at 3. *)
Example three_stage_scenario :
  exists s,
    Process 3 7 (chain_of [fun plan err => Effect (fun _ => 1)
                                             (CallNext plan err Return);
                           count_and_forward; count_and_stop]) = Returned s /\
    world s = 3 /\ map inv_idx (calls s) = [0; 1; 2].
Proof.
  eexists. split; [vm_compute; reflexivity|]. split; vm_compute; reflexivity.
Qed.

(** A stage that calls [Add] on its own chain while [Process] runs waits
    for the mutex [Process] holds; one that calls [Clear] goes through. *)
Example reentrant_Add_blocks_and_Clear_does_not :
  (exists s, Process 3 7 (chain_of [fun plan err =>
                                      CallAdd count_and_stop Return]) =
             Blocked s) /\
  (exists s, Process 3 7 (chain_of [fun plan err => CallClear Return]) =
             Returned s /\ stages (chain s) = [] /\ nexts (chain s) = []).
Proof.
  split; eexists; [vm_compute; reflexivity|].
  split; [vm_compute; reflexivity|]. by split.
Qed.

(** An instance, on concrete stages. *)
Lemma Process_invokes_in_order_witness :
  calls (final_state
           (Process 2 7 (chain_of [count_and_forward; count_and_forward]))) =
    calls (chain_of [count_and_forward; count_and_forward]) ++
    invocations 0 [count_and_forward; count_and_forward] 7 None /\
  ([count_and_forward; count_and_forward] <> [] ->
   exists s'',
     Process 2 7 (chain_of [count_and_forward; count_and_forward]) =
     Panicked NilFuncCall s'' /\
     chain s'' = chain (chain_of [count_and_forward; count_and_forward])).
Proof.
  apply (Process_invokes_in_order
           [count_and_forward; count_and_forward] empty_chain_state).
  - vm_compute; reflexivity.
  - vm_compute; reflexivity.
  - vm_compute; reflexivity.
  - repeat constructor.
  - simpl. lia.
Defined.

(** C2 as stated, where a stage function may keep the continuation it
    is handed: the second stage returns without calling its continuation,
    and the third stage runs all the same, called by the first stage, which
    calls what the second has kept. *)
Lemma kept_continuation_counterexample :
  exists s,
    Process 3 7 (chain_of [forward_then_call_kept; keep_and_stop;
                           count_and_stop]) = Returned s /\
    handoffs s = [ByNext 0; ByKept 0] /\
    calls s = [Invoked 0 forward_then_call_kept 7 None;
               Invoked 1 keep_and_stop 7 None;
               Invoked 2 count_and_stop 7 None] /\
    world s = 1.
Proof. eexists. split; [vm_compute; reflexivity|]. by split_and!. Qed.

(** An instance: the second stage returns at once when it is handed an
    error, and the first stage hands it one. *)
Lemma stage_without_next_halts_pipeline_witness :
  (length ([fail_with 42] ++ stop_on_error :: [count_and_stop]) <= 3 ->
   out_of_fuel
     (Process 3 7 (chain_of [fail_with 42; stop_on_error; count_and_stop])) =
   false) /\
  exists t,
    calls (final_state
             (Process 3 7 (chain_of [fail_with 42; stop_on_error;
                                     count_and_stop]))) =
    calls (chain_of [fail_with 42; stop_on_error; count_and_stop]) ++ t /\
    Forall (fun c => inv_idx c <= length [fail_with 42] /\
                     ([fail_with 42] ++ stop_on_error :: [count_and_stop])
                       !! inv_idx c = Some (inv_fn c)) t.
Proof.
  apply (stage_without_next_halts_pipeline
           [fail_with 42] stop_on_error [count_and_stop] empty_chain_state).
  - vm_compute; reflexivity.
  - vm_compute; reflexivity.
  - vm_compute; reflexivity.
  - vm_compute. repeat constructor.
Defined.

(** The same second stage hands on what it gets when that is no error, and
    a stage that looks at the count stops the run at 2: neither is a stage
    that never calls its continuation. *)
Example short_circuit_is_decided_at_run_time :
  (exists s,
     Process 3 7 (chain_of [count_and_forward; stop_on_error;
                            count_and_stop]) = Returned s /\
     map inv_idx (calls s) = [0; 1; 2]) /\
  (exists s,
     Process 4 7 (chain_of [count_and_forward; count_and_forward;
                            forward_below_two; count_and_stop]) =
     Returned s /\
     map inv_idx (calls s) = [0; 1; 2] /\ handoffs s = [ByNext 0; ByNext 1]).
Proof.
  split; eexists; (split; [vm_compute; reflexivity|]); by split_and?.
Qed.

(** An instance, on concrete stages. *)
Lemma next_arguments_reach_next_stage_witness :
  (forall fuel plan0 err0 s',
     nexts (chain s') = nexts (chain (chain_of [fail_with 42; count_and_stop])) ->
     invoke (S fuel) (stageFn (fail_with 42) 0) plan0 err0 s' =
     run_body (invoke fuel) 0 (stageFn count_and_stop 1)
       (fail_with 42 plan0 err0)
       (record (Invoked 0 (fail_with 42) plan0 err0) s')) /\
  (forall fuel plan err k s',
     nexts (chain s') = nexts (chain (chain_of [fail_with 42; count_and_stop])) ->
     exists next,
       run_body (invoke (S fuel)) 0 (stageFn count_and_stop 1)
         (CallNext plan err k) s' =
       and_then
         (run_body (invoke fuel) 1 next (count_and_stop plan err)
            (record (Invoked 1 count_and_stop plan err)
               (hand_on (ByNext 0) s')))
         (run_body (invoke (S fuel)) 0 (stageFn count_and_stop 1) k)) /\
  (forall fuel plan0 err0 l s',
     nexts (chain s') = nexts (chain (chain_of [fail_with 42; count_and_stop])) ->
     calls_exactly l (fail_with 42 plan0 err0) ->
     (forall plan err, calls_exactly [] (count_and_stop plan err)) ->
     2 <= fuel ->
     exists s'',
       invoke fuel (stageFn (fail_with 42) 0) plan0 err0 s' = Returned s'' /\
       calls s'' =
         calls s' ++ Invoked 0 (fail_with 42) plan0 err0 ::
         map (fun a => Invoked 1 count_and_stop a.1 a.2) l) /\
  (forall fuel plan,
     exists f0 next0,
       [fail_with 42; count_and_stop] !! 0 = Some f0 /\
       Process (S fuel) plan (chain_of [fail_with 42; count_and_stop]) =
       deferred Unlock
         (run_body (invoke fuel) 0 next0 (f0 plan None)
            (record (Invoked 0 f0 plan None)
               (set_mu Locked (chain_of [fail_with 42; count_and_stop]))))).
Proof.
  apply (next_arguments_reach_next_stage
           [fail_with 42; count_and_stop] empty_chain_state).
  - vm_compute; reflexivity.
  - vm_compute; reflexivity.
  - vm_compute; reflexivity.
  - vm_compute; reflexivity.
  - vm_compute; reflexivity.
Defined.

(** The error a stage hands to [next] is the one the next stage is called
    with; the first stage is called with the nil error. *)
Example error_reaches_next_stage :
  exists s,
    Process 2 7 (chain_of [fail_with 42; count_and_stop]) = Returned s /\
    calls s = [Invoked 0 (fail_with 42) 7 None;
               Invoked 1 count_and_stop 7 (Some 42)].
Proof. eexists. split; vm_compute; reflexivity. Qed.

(** An instance, on concrete stages. *)
Lemma slices_keep_same_length_witness :
  (forall (w : nat) (kp : list (@ChainStageNextFunction nat nat nat))
          (t : list (@Invocation nat nat nat)) (h : list Handoff),
     same_length (mkState CreateChain w kp t h)) /\
  (forall fn,
     same_length
       (final_state (Add fn (chain_of [count_and_forward; count_and_stop])))) /\
  same_length
    (final_state (Clear (chain_of [count_and_forward; count_and_stop]))) /\
  (forall fuel plan,
     same_length
       (final_state
          (Process fuel plan (chain_of [count_and_forward; count_and_stop])))).
Proof.
  apply (slices_keep_same_length (chain_of [count_and_forward; count_and_stop])).
  vm_compute; reflexivity.
Defined.

(** C8 as stated, where every stage after the one that calls twice calls
    its continuation too: the last of them calls a nil function, the panic
    ends the run inside the first of the two calls, and the stage after
    [forward_twice] has run once, not twice. *)
Lemma continuation_called_twice_counterexample :
  calls_twice (fun plan err => (plan, err)) (fun plan err => (plan, err))
    forward_twice /\
  Forall forwards [count_and_forward] /\
  Process 2 7 (chain_of [forward_twice; count_and_forward]) =
  Panicked NilFuncCall
    {| chain := chain (chain_of [forward_twice; count_and_forward]);
       world := 1;
       kept := [];
       calls := [Invoked 0 forward_twice 7 None;
                 Invoked 1 count_and_forward 7 None];
       handoffs := [ByNext 0; ByNext 1] |}.
Proof.
  split; [|split].
  - intros plan err. repeat constructor.
  - repeat constructor.
  - vm_compute; reflexivity.
Qed.

(** An instance, on concrete stages. *)
Lemma continuation_called_twice_runs_suffix_twice_witness :
  (forall fuel plan err s0,
     nexts (chain s0) =
     nexts (chain (chain_of [count_and_forward; forward_twice;
                             count_and_forward; count_and_stop])) ->
     S (S (length [count_and_forward])) <= fuel ->
     exists s1,
       invoke fuel (stageFn forward_twice (length [count_and_forward]))
         plan err s0 = Returned s1 /\
       chain s1 = chain s0 /\
       calls s1 =
         calls s0 ++
         Invoked (length [count_and_forward]) forward_twice plan err ::
         invocations 2 ([count_and_forward] ++ [count_and_stop]) plan err ++
         invocations 2 ([count_and_forward] ++ [count_and_stop]) plan err) /\
  (Forall forwards [count_and_forward] ->
   forall fuel plan,
     length ([count_and_forward] ++ forward_twice ::
             [count_and_forward] ++ [count_and_stop]) <= fuel ->
     exists s'',
       Process fuel plan
         (chain_of [count_and_forward; forward_twice;
                    count_and_forward; count_and_stop]) = Returned s'' /\
       chain s'' =
       chain (chain_of [count_and_forward; forward_twice;
                        count_and_forward; count_and_stop]) /\
       calls s'' =
         calls (chain_of [count_and_forward; forward_twice;
                          count_and_forward; count_and_stop]) ++
         invocations 0 [count_and_forward] plan None ++
         Invoked (length [count_and_forward]) forward_twice plan None ::
         invocations 2 ([count_and_forward] ++ [count_and_stop]) plan None ++
         invocations 2 ([count_and_forward] ++ [count_and_stop]) plan None).
Proof.
  apply (continuation_called_twice_runs_suffix_twice
           [count_and_forward] forward_twice [count_and_forward] count_and_stop
           (fun plan err => (plan, err)) (fun plan err => (plan, err))
           empty_chain_state).
  - vm_compute; reflexivity.
  - vm_compute; reflexivity.
  - vm_compute; reflexivity.
  - intros plan err. repeat constructor.
  - repeat constructor.
  - intros plan err. repeat constructor.
Defined.

(** The counter of that run: one count before [forward_twice], and two
    stages after it, each run twice. *)
Example suffix_counted_twice :
  world (final_state
           (Process 4 7 (chain_of [count_and_forward; forward_twice;
                                   count_and_forward; count_and_stop]))) = 5.
Proof. vm_compute; reflexivity. Qed.

(** An instance, on concrete stages. *)
Lemma last_slot_is_nil_until_next_Add_witness :
  stages (chain (chain_of [count_and_forward])) =
    stages (chain empty_chain_state) ++
    [stageFn count_and_forward (length (nexts (chain empty_chain_state)))] /\
  nexts (chain (chain_of [count_and_forward]))
    !! length (nexts (chain empty_chain_state)) = Some nil_func /\
  (forall fuel plan,
     nexts (chain (final_state
                     (Process fuel plan (chain_of [count_and_forward]))))
       !! length (nexts (chain empty_chain_state)) = Some nil_func \/
     nexts (chain (final_state
                     (Process fuel plan (chain_of [count_and_forward])))) = []) /\
  (exists s2,
     Add count_and_stop (chain_of [count_and_forward]) = Returned s2 /\
     stages (chain s2) =
       stages (chain (chain_of [count_and_forward])) ++
       [stageFn count_and_stop (S (length (nexts (chain empty_chain_state))))] /\
     nexts (chain s2) !! length (nexts (chain empty_chain_state)) =
       Some (stageFn count_and_stop
               (S (length (nexts (chain empty_chain_state))))) /\
     nexts (chain s2) !! S (length (nexts (chain empty_chain_state))) =
       Some nil_func) /\
  (forall fuel plan err plan' err' l s',
     nexts (chain s') !! length (nexts (chain empty_chain_state)) =
       Some nil_func ->
     calls_exactly ((plan', err') :: l) (count_and_forward plan err) ->
     exists s'',
       invoke (S fuel)
         (stageFn count_and_forward (length (nexts (chain empty_chain_state))))
         plan err s' =
       Panicked NilFuncCall s'').
Proof.
  apply (last_slot_is_nil_until_next_Add
           count_and_forward count_and_stop empty_chain_state).
  vm_compute; reflexivity.
Defined.

(** An instance, on concrete stages. *)
Lemma Process_on_empty_chain_returns_witness :
  Process 0 7 empty_chain_state = Returned empty_chain_state.
Proof.
  apply (Process_on_empty_chain_returns 0 7 empty_chain_state).
  - vm_compute; reflexivity.
  - vm_compute; reflexivity.
Defined.

(** An instance, on concrete stages. *)
Lemma Clear_resets_chain_with_free_mutex_witness :
  exists s0,
    Clear (chain_of [count_and_forward; count_and_stop]) = Returned s0 /\
    chain s0 = mkChain [] [] (Some Unlocked) /\
    world s0 = world (chain_of [count_and_forward; count_and_stop]) /\
    calls s0 = calls (chain_of [count_and_forward; count_and_stop]) /\
    Process 1 7 s0 = Returned s0 /\
    Add count_and_stop s0 =
    Returned (set_chain (wired [count_and_stop] (Some Unlocked)) s0).
Proof.
  apply (Clear_resets_chain_with_free_mutex
           count_and_stop 1 7 (chain_of [count_and_forward; count_and_stop])).
  vm_compute; reflexivity.
Defined.


(** An instance, on concrete stages. *)
Lemma Process_holds_mutex_throughout_witness :
  match Process 1 7 (chain_of [count_and_forward; count_and_forward]) with
  | Returned s' | Panicked _ s' => mu (chain s') = Some Unlocked
  | Blocked s' | Diverged s' | OutOfFuel s' => mu (chain s') = Some Locked
  end.
Proof.
  apply (Process_holds_mutex_throughout
           1 7 (chain_of [count_and_forward; count_and_forward])).
  vm_compute; reflexivity.
Defined.

(** An instance, on concrete stages. *)
Lemma Process_runs_terminated_pipeline_witness :
  exists s1 s2,
    Process 2 7 (chain_of ([count_and_forward] ++ [count_and_stop])) =
    Returned s1 /\
    chain s1 = chain (chain_of ([count_and_forward] ++ [count_and_stop])) /\
    calls s1 =
      calls (chain_of ([count_and_forward] ++ [count_and_stop])) ++
      invocations 0 ([count_and_forward] ++ [count_and_stop]) 7 None /\
    Process 2 8 s1 = Returned s2 /\
    chain s2 = chain (chain_of ([count_and_forward] ++ [count_and_stop])) /\
    calls s2 =
      calls s1 ++
      invocations 0 ([count_and_forward] ++ [count_and_stop]) 8 None.
Proof.
  apply (Process_runs_terminated_pipeline
           [count_and_forward] count_and_stop empty_chain_state).
  - vm_compute; reflexivity.
  - vm_compute; reflexivity.
  - vm_compute; reflexivity.
  - repeat constructor.
  - intros plan err. repeat constructor.
  - simpl. lia.
Defined.

(** An instance, on concrete stages. *)
Lemma Add_links_each_stage_to_the_next_witness :
  world (chain_of [count_and_forward; count_and_stop]) =
    world empty_chain_state /\
  calls (chain_of [count_and_forward; count_and_stop]) =
    calls empty_chain_state /\
  length (stages (chain (chain_of [count_and_forward; count_and_stop]))) =
    length [count_and_forward; count_and_stop] /\
  length (nexts (chain (chain_of [count_and_forward; count_and_stop]))) =
    length [count_and_forward; count_and_stop] /\
  ([count_and_forward; count_and_stop] <> [] ->
   mu (chain (chain_of [count_and_forward; count_and_stop])) =
   Some Unlocked) /\
  (forall i fn,
     [count_and_forward; count_and_stop] !! i = Some fn ->
     stages (chain (chain_of [count_and_forward; count_and_stop])) !! i =
       Some (stageFn fn i) /\
     nexts (chain (chain_of [count_and_forward; count_and_stop])) !! i =
       Some (match [count_and_forward; count_and_stop] !! S i with
             | Some g => stageFn g (S i)
             | None => nil_func
             end)).
Proof.
  apply (Add_links_each_stage_to_the_next
           [count_and_forward; count_and_stop] empty_chain_state).
  - vm_compute; reflexivity.
  - vm_compute; reflexivity.
  - vm_compute; reflexivity.
Defined.

(** An instance, on concrete stages. *)
Lemma stage_calling_Add_or_Process_blocks_witness :
  (forall fuel i (fn : @ChainStageFunction nat nat nat) next plan' err s0,
     mu (chain s0) = Some Locked ->
     nexts (chain s0) !! i = Some next ->
     calls_back_first (fn plan' err) ->
     exists s1,
       invoke (S fuel) (stageFn fn i) plan' err s0 = Blocked s1 /\
       chain s1 = chain s0 /\
       calls s1 = calls s0 ++ [Invoked i fn plan' err]) /\
  (forall fuel,
     exists s1,
       Process (S fuel) 7 (chain_of [add_from_inside; count_and_stop]) =
       Blocked s1 /\
       mu (chain s1) = Some Locked /\
       stages (chain s1) =
         stages (chain (chain_of [add_from_inside; count_and_stop])) /\
       nexts (chain s1) =
         nexts (chain (chain_of [add_from_inside; count_and_stop])) /\
       calls s1 =
         calls (chain_of [add_from_inside; count_and_stop]) ++
         [Invoked 0 add_from_inside 7 None]).
Proof.
  apply (stage_calling_Add_or_Process_blocks
           [add_from_inside; count_and_stop] empty_chain_state).
  - vm_compute; reflexivity.
  - vm_compute; reflexivity.
  - vm_compute; reflexivity.
  - vm_compute; reflexivity.
  - constructor.
Defined.

(** An instance, on concrete stages. *)
Lemma Clear_inside_stage_breaks_its_continuation_witness :
  exists s1,
    Process 2 7 (chain_of (clear_and_forward :: [count_and_stop])) =
    Panicked IndexOutOfRange s1 /\
    stages (chain s1) = [] /\ nexts (chain s1) = [] /\
    mu (chain s1) = Some Unlocked /\
    calls s1 =
      calls (chain_of (clear_and_forward :: [count_and_stop])) ++
      [Invoked 0 clear_and_forward 7 None].
Proof.
  apply (Clear_inside_stage_breaks_its_continuation
           clear_and_forward [count_and_stop] empty_chain_state).
  - vm_compute; reflexivity.
  - vm_compute; reflexivity.
  - vm_compute; reflexivity.
  - repeat constructor.
  - simpl. lia.
Defined.

(** An instance, on concrete stages. *)
Lemma Process_runs_stages_that_test_next_witness :
  exists s1,
    Process 2 7 (chain_of [count_and_forward_if_bound;
                           count_and_forward_if_bound]) = Returned s1 /\
    chain s1 =
      chain (chain_of [count_and_forward_if_bound;
                       count_and_forward_if_bound]) /\
    calls s1 =
      calls (chain_of [count_and_forward_if_bound;
                       count_and_forward_if_bound]) ++
      invocations 0 [count_and_forward_if_bound; count_and_forward_if_bound]
        7 None.
Proof.
  apply (Process_runs_stages_that_test_next
           [count_and_forward_if_bound; count_and_forward_if_bound]
           empty_chain_state).
  - vm_compute; reflexivity.
  - vm_compute; reflexivity.
  - vm_compute; reflexivity.
  - discriminate.
  - repeat constructor.
  - simpl. lia.
Defined.

(** An instance, on concrete stages. *)
Lemma Process_leaves_slices_or_finds_them_cleared_witness :
  (stages (chain (final_state
                    (Process 2 7 (chain_of [clear_and_forward;
                                            count_and_stop])))) =
   stages (chain (chain_of [clear_and_forward; count_and_stop])) /\
   nexts (chain (final_state
                   (Process 2 7 (chain_of [clear_and_forward;
                                           count_and_stop])))) =
   nexts (chain (chain_of [clear_and_forward; count_and_stop]))) \/
  (stages (chain (final_state
                    (Process 2 7 (chain_of [clear_and_forward;
                                            count_and_stop])))) = [] /\
   nexts (chain (final_state
                   (Process 2 7 (chain_of [clear_and_forward;
                                           count_and_stop])))) = []).
Proof.
  apply (Process_leaves_slices_or_finds_them_cleared
           2 7 (chain_of [clear_and_forward; count_and_stop])).
  vm_compute; reflexivity.
Defined.

(** An instance: the walk of ["broken"] meets a file that does not
    decode after one that does. *)
Lemma parseStaticRelationships_returns_what_it_parsed_witness :
  parseStaticRelationships demo_ReadFile demo_Unmarshal demo_entries "broken" =
  (["edge"], Some (LibraryError "unexpected end of JSON input")).
Proof.
  refine (parseStaticRelationships_returns_what_it_parsed
            demo_ReadFile demo_Unmarshal demo_entries "broken"
            [mkVisit "broken" (Some true) None;
             mkVisit "broken/a.json" (Some false) None]
            [mkVisit "broken/bad.json" (Some false) None;
             mkVisit "broken/c.json" (Some false) None] _ _ _).
  - vm_compute; reflexivity.
  - repeat constructor.
  - vm_compute. discriminate.
Defined.

(** An instance: the error of the file of ["broken"] that does not decode
    is not returned; the registry holds ["mount"] before, and would refuse it
    but accepts ["edge"]. *)
Lemma RegisterStatic_returns_nil_when_all_register_witness :
  RegisterStaticMeshmodelRelationships
    demo_ReadFile demo_Unmarshal demo_RegisterEntity id id demo_entries
    ["mount"] "broken" =
  (["mount"; "edge"], None).
Proof.
  refine (RegisterStatic_returns_nil_when_all_register
            demo_ReadFile demo_Unmarshal demo_RegisterEntity id id
            demo_entries ["mount"] "broken" ["edge"]
            (Some (LibraryError "unexpected end of JSON input")) _ _ _).
  - vm_compute; reflexivity.
  - discriminate.
  - vm_compute; reflexivity.
Defined.

(** An instance: the second of three relationships is the first once
    more, which the registry accepted then and refuses now. *)
Lemma RegisterStatic_stops_at_first_refusal_witness :
  RegisterStaticMeshmodelRelationships
    demo_ReadFile demo_Unmarshal demo_RegisterEntity id id demo_entries
    [] "twice" =
  (["edge"], Some (LibraryError "refused")).
Proof.
  refine (RegisterStatic_stops_at_first_refusal
            demo_ReadFile demo_Unmarshal demo_RegisterEntity id id
            demo_entries [] "twice" ["edge"] "edge" ["bind"]
            None "refused" _ _ _).
  - vm_compute; reflexivity.
  - vm_compute; reflexivity.
  - vm_compute; reflexivity.
Defined.

(** An instance: a source path that is not there. *)
Lemma RegisterStatic_registers_nothing_without_a_file_witness :
  RegisterStaticMeshmodelRelationships
    demo_ReadFile demo_Unmarshal demo_RegisterEntity id id demo_entries
    ["mount"] "missing" =
  (["mount"], Some (InvalidFileInfo "missing")).
Proof.
  refine (RegisterStatic_registers_nothing_without_a_file
            demo_ReadFile demo_Unmarshal demo_RegisterEntity id id
            demo_entries ["mount"] "missing" []
            [mkVisit "missing" None (Some "no such file or directory")]
            _ _ _).
  - vm_compute; reflexivity.
  - constructor.
  - vm_compute. discriminate.
Defined.

(** An instance: a relationship is posted to an empty registry. *)
Lemma RegisterMeshmodelRelationships_changes_registry_by_registering_witness :
  exists cc rel,
    demo_Decode (Some (mkRegistrantData "meshery" "relationship" "edge")) =
      inl cc /\
    cc_EntityType cc = "relationship" /\
    demo_Unmarshal (cc_Entity cc) = inl rel /\
    reg_registry
      (RegisterMeshmodelRelationships
         demo_Unmarshal demo_RegisterEntity demo_Decode "relationship"
         (Some (mkRegistrantData "meshery" "relationship" "edge")) []) =
    (demo_RegisterEntity (cc_Host cc) rel []).1.
Proof.
  refine (RegisterMeshmodelRelationships_changes_registry_by_registering
            demo_Unmarshal demo_RegisterEntity demo_Decode "relationship"
            (Some (mkRegistrantData "meshery" "relationship" "edge")) [] _).
  vm_compute. discriminate.
Defined.

(** An instance: a component is posted, with an entity that would not
    decode. *)
Lemma RegisterMeshmodelRelationships_accepts_other_entity_types_witness :
  RegisterMeshmodelRelationships
    demo_Unmarshal demo_RegisterEntity demo_Decode "relationship"
    (Some (mkRegistrantData "meshery" "component" "")) ["edge"] =
  mkRegistration None ["edge"] true.
Proof.
  refine (RegisterMeshmodelRelationships_accepts_other_entity_types
            demo_Unmarshal demo_RegisterEntity demo_Decode "relationship"
            (Some (mkRegistrantData "meshery" "component" "")) ["edge"]
            (mkRegistrantData "meshery" "component" "") _ _).
  - vm_compute; reflexivity.
  - discriminate.
Defined.

(** An instance: the same request with and without [?version=v1]. *)
Lemma GetMeshmodelRelationshipByName_reads_no_version_witness :
  GetMeshmodelRelationshipByName
    demo_Atoi 25 demo_GetEntities demo_asRelationshipDefinition
    (Get [("model", "kubernetes"); ("name", "Edge")])
    (Get [("version", "v1"); ("page", "2"); ("pagesize", "2")]) =
  GetMeshmodelRelationshipByName
    demo_Atoi 25 demo_GetEntities demo_asRelationshipDefinition
    (Get [("model", "kubernetes"); ("name", "Edge")])
    (Get [("page", "2"); ("pagesize", "2")]).
Proof.
  refine (GetMeshmodelRelationshipByName_reads_no_version
            demo_Atoi 25 demo_GetEntities demo_asRelationshipDefinition
            (Get [("model", "kubernetes"); ("name", "Edge")])
            (Get [("model", "kubernetes"); ("name", "Edge")])
            (Get [("version", "v1"); ("page", "2"); ("pagesize", "2")])
            (Get [("page", "2"); ("pagesize", "2")]) _ _ _).
  - vm_compute; reflexivity.
  - vm_compute; reflexivity.
  - repeat constructor.
Defined.

(** An instance: the same request with and without [?search=true] and a
    route variable [name]. *)
Lemma GetAllMeshmodelRelationships_reads_no_search_witness :
  GetAllMeshmodelRelationships
    demo_Atoi 25 demo_GetEntities demo_asRelationshipDefinition
    (Get [("model", "kubernetes"); ("name", "Edge")])
    (Get [("search", "true"); ("version", "v1")]) =
  GetAllMeshmodelRelationships
    demo_Atoi 25 demo_GetEntities demo_asRelationshipDefinition
    (Get [("model", "kubernetes")])
    (Get [("version", "v1")]).
Proof.
  refine (GetAllMeshmodelRelationships_reads_no_search
            demo_Atoi 25 demo_GetEntities demo_asRelationshipDefinition
            (Get [("model", "kubernetes"); ("name", "Edge")])
            (Get [("model", "kubernetes")])
            (Get [("search", "true"); ("version", "v1")])
            (Get [("version", "v1")]) _ _).
  - vm_compute; reflexivity.
  - repeat constructor.
Defined.

(** An instance: [?pagesize=all&page=3]. *)
Lemma pagesize_all_ignores_the_page_witness :
  Limit (filterByName demo_Atoi 25 (Get [("model", "kubernetes")])
           (Get [("pagesize", "all"); ("page", "3")])) = 0%Z /\
  Offset (filterByName demo_Atoi 25 (Get [("model", "kubernetes")])
            (Get [("pagesize", "all"); ("page", "3")])) = 0%Z /\
  Limit (filterAll demo_Atoi 25 (Get [("model", "kubernetes")])
           (Get [("pagesize", "all"); ("page", "3")])) = 0%Z /\
  Offset (filterAll demo_Atoi 25 (Get [("model", "kubernetes")])
            (Get [("pagesize", "all"); ("page", "3")])) = 0%Z.
Proof.
  refine (pagesize_all_ignores_the_page
            demo_Atoi 25 (Get [("model", "kubernetes")])
            (Get [("pagesize", "all"); ("page", "3")]) _).
  vm_compute; reflexivity.
Defined.


(** An instance: pages 2 and 3 of size 10 start at 10 and at 20. *)
Lemma consecutive_pages_are_adjacent_witness :
  (Limit (filterByName demo_Atoi 25 (Get [("model", "kubernetes")])
            (Get [("page", "3"); ("pagesize", "10")])) =
   Limit (filterByName demo_Atoi 25 (Get [("model", "kubernetes")])
            (Get [("page", "2"); ("pagesize", "10")])) /\
   Offset (filterByName demo_Atoi 25 (Get [("model", "kubernetes")])
             (Get [("page", "3"); ("pagesize", "10")])) =
   int_wrap
     (Offset (filterByName demo_Atoi 25 (Get [("model", "kubernetes")])
                (Get [("page", "2"); ("pagesize", "10")])) +
      Limit (filterByName demo_Atoi 25 (Get [("model", "kubernetes")])
               (Get [("page", "2"); ("pagesize", "10")])))) /\
  (Limit (filterAll demo_Atoi 25 (Get [("model", "kubernetes")])
            (Get [("page", "3"); ("pagesize", "10")])) =
   Limit (filterAll demo_Atoi 25 (Get [("model", "kubernetes")])
            (Get [("page", "2"); ("pagesize", "10")])) /\
   Offset (filterAll demo_Atoi 25 (Get [("model", "kubernetes")])
             (Get [("page", "3"); ("pagesize", "10")])) =
   int_wrap
     (Offset (filterAll demo_Atoi 25 (Get [("model", "kubernetes")])
                (Get [("page", "2"); ("pagesize", "10")])) +
      Limit (filterAll demo_Atoi 25 (Get [("model", "kubernetes")])
               (Get [("page", "2"); ("pagesize", "10")])))).
Proof.
  refine (consecutive_pages_are_adjacent
            demo_Atoi 25 (Get [("model", "kubernetes")])
            (Get [("page", "2"); ("pagesize", "10")])
            (Get [("page", "3"); ("pagesize", "10")]) 2%Z _ _ _ _).
  - vm_compute; reflexivity.
  - vm_compute; reflexivity.
  - vm_compute; reflexivity.
  - lia.
Defined.

(** An instance: [?page=-1&pagesize=10] asks for the offset -20. *)
Lemma negative_page_gives_negative_offset_witness :
  Offset (filterByName demo_Atoi 25 (Get [("model", "kubernetes")])
            (Get [("page", "-1"); ("pagesize", "10")])) =
    ((-1 - 1) *
     Limit (filterByName demo_Atoi 25 (Get [("model", "kubernetes")])
              (Get [("page", "-1"); ("pagesize", "10")])))%Z /\
  (Offset (filterByName demo_Atoi 25 (Get [("model", "kubernetes")])
             (Get [("page", "-1"); ("pagesize", "10")])) < 0)%Z /\
  Offset (filterAll demo_Atoi 25 (Get [("model", "kubernetes")])
            (Get [("page", "-1"); ("pagesize", "10")])) =
  Offset (filterByName demo_Atoi 25 (Get [("model", "kubernetes")])
            (Get [("page", "-1"); ("pagesize", "10")])).
Proof.
  refine (negative_page_gives_negative_offset
            demo_Atoi 25 (Get [("model", "kubernetes")])
            (Get [("page", "-1"); ("pagesize", "10")]) (-1)%Z _ _ _ _).
  - vm_compute; reflexivity.
  - lia.
  - vm_compute; reflexivity.
  - vm_compute. discriminate.
Defined.
